(** * Phone number forwarding: a shallow embedding of [phone_forward.c]

    The forwarding table is a trie over the twelve symbols [0]-[9], [*]
    and [#].  Every node holds an optional forwarding target and an array
    of [BASE] child pointers.  This file embeds the functions of
    [src/phone_forward.c] as Rocq functions and proves properties of
    [phfwdAdd], [phfwdRemove], [phfwdGet], [phfwdReverse] and
    [phfwdGetReverse].

    Conventions of the embedding:
    - a C string is the list of the characters before its terminator; a
      [char *] that may be [NULL] is an [option cstring];
    - a [PhoneForward *] is a value of [PhoneForward], whose constructor
      [NULL] is the null pointer; in-place mutation of a node becomes the
      reconstruction of the node on the way back from the recursive call;
    - [free] has no counterpart: a deleted subtree is simply dropped;
    - [malloc] is given an explicit oracle only where the source tests its
      result (in [phfwdNew]); the other allocations are dereferenced
      unchecked by the source and are taken to succeed. *)

From Stdlib Require Import Ascii String.
From Stdlib Require Import List Arith Bool NArith ZArith Lia.
From Stdlib Require Import Sorting.Sorted Sorting.Permutation.
Import ListNotations.

Set Implicit Arguments.
Set Warnings "-register-all".

(** ** Strings *)

Definition cstring := list ascii.

(** A literal, for examples. *)
Definition str (s : string) : cstring := list_ascii_of_string s.

(** [strlen] *)
Definition strlen (s : cstring) : nat := length s.

(** [strcmp]: bytes compared as unsigned characters. *)
Fixpoint strcmp (a b : cstring) : comparison :=
  match a, b with
  | [], [] => Eq
  | [], _ :: _ => Lt
  | _ :: _, [] => Gt
  | x :: a', y :: b' =>
      match Nat.compare (nat_of_ascii x) (nat_of_ascii y) with
      | Eq => strcmp a' b'
      | c => c
      end
  end.

(** [strcmp(a, b) == 0] *)
Definition streq (a b : cstring) : bool :=
  match strcmp a b with Eq => true | _ => false end.

(** ** The alphabet *)

Definition BASE : nat := 12.

Definition isdigit (c : ascii) : bool :=
  (48 <=? nat_of_ascii c) && (nat_of_ascii c <=? 57).

Definition star : ascii := "*"%char.
Definition hash : ascii := "#"%char.

Definition isSymbol (c : ascii) : bool :=
  isdigit c || Ascii.eqb c star || Ascii.eqb c hash.

Definition charToInt (c : ascii) : nat :=
  if isdigit c then nat_of_ascii c - 48
  else if Ascii.eqb c star then 10
  else 11.

Definition intToChar (x : nat) : ascii :=
  if x <=? 9 then ascii_of_nat (48 + x)
  else if x =? 10 then star
  else hash.

(** [isNumberOk]: the pointer is not [NULL], the string is not empty and
    every character is a symbol. *)
Definition isNumberOk (num : option cstring) : bool :=
  match num with
  | None => false
  | Some [] => false
  | Some s => forallb isSymbol s
  end.

(** ** The trie *)

Inductive PhoneForward : Type :=
| NULL : PhoneForward
| Node (forwardNumber : option cstring) (children : list PhoneForward)
    : PhoneForward.

(** [pf->children[i]] *)
Definition child (cs : list PhoneForward) (i : nat) : PhoneForward :=
  nth i cs NULL.

(** [pf->children[i] = x]; a slot outside the array is not written. *)
Fixpoint setChild (cs : list PhoneForward) (i : nat) (x : PhoneForward)
  : list PhoneForward :=
  match cs, i with
  | [], _ => []
  | _ :: cs', O => x :: cs'
  | c :: cs', S i' => c :: setChild cs' i' x
  end.

(** The allocator, as far as [phfwdNew] observes it: one answer per call,
    [true] when [malloc] returns memory.  An exhausted list means that
    every further allocation succeeds. *)
Definition allocator := list bool.

Definition malloc (al : allocator) : bool * allocator :=
  match al with
  | [] => (true, [])
  | b :: al' => (b, al')
  end.

Definition phfwdNew (al : allocator) : PhoneForward * allocator :=
  let (ok, al') := malloc al in
  if ok then (Node None (repeat NULL BASE), al') else (NULL, al').

(** [addPhoneForward(pf, num1, num2, i)]; [rest] is [num1 + i].  The
    [assert(pf != NULL)] of the source holds at every call made by
    [phfwdAdd]; the [NULL] branch stands for the failed assertion. *)
Fixpoint addPhoneForward (al : allocator) (pf : PhoneForward)
    (rest : cstring) (num2 : cstring) : bool * PhoneForward * allocator :=
  match pf with
  | NULL => (false, NULL, al)
  | Node fwd cs =>
      match rest with
      | [] => (true, Node (Some num2) cs, al)
      | c :: rest' =>
          let k := charToInt c in
          match child cs k with
          | NULL =>
              match phfwdNew al with
              | (NULL, al') => (false, Node fwd (setChild cs k NULL), al')
              | (fresh, al') =>
                  let '(r, sub, al'') :=
                    addPhoneForward al' fresh rest' num2 in
                  (r, Node fwd (setChild cs k sub), al'')
              end
          | old =>
              let '(r, sub, al') := addPhoneForward al old rest' num2 in
              (r, Node fwd (setChild cs k sub), al')
          end
      end
  end.

(** [phoneForwardRemove(pf, num, lenght, i)]; [rest] is [num + i], so that
    [i == lenght - 1] reads "[rest] has one character".  [phfwdDelete]
    only releases memory: the deleted subtree is replaced by [NULL].
    [phfwdRemove] never calls it on an empty string. *)
Fixpoint phoneForwardRemove (pf : PhoneForward) (rest : cstring)
  : PhoneForward :=
  match pf with
  | NULL => NULL
  | Node fwd cs =>
      match rest with
      | [] => Node fwd cs
      | [c] => Node fwd (setChild cs (charToInt c) NULL)
      | c :: rest' =>
          let k := charToInt c in
          Node fwd (setChild cs k (phoneForwardRemove (child cs k) rest'))
      end
  end.

Definition phfwdRemove (pf : PhoneForward) (num : option cstring)
  : PhoneForward :=
  match pf, num with
  | NULL, _ => pf
  | _, None => pf
  | _, Some s =>
      if negb (isNumberOk num) then pf
      else if strlen s =? 0 then pf
      else phoneForwardRemove pf s
  end.

Definition phfwdAdd (al : allocator) (pf : PhoneForward)
    (num1 num2 : option cstring) : bool * PhoneForward * allocator :=
  match pf with
  | NULL => (false, pf, al)
  | _ =>
      match num1, num2 with
      | Some s1, Some s2 =>
          if negb (isNumberOk num1) || negb (isNumberOk num2) || streq s1 s2
          then (false, pf, al)
          else
            let '(result, pf', al') := addPhoneForward al pf s1 s2 in
            if negb result then (result, phfwdRemove pf' num1, al')
            else (result, pf', al')
      | _, _ => (false, pf, al)
      end
  end.

(** ** Result lists *)

Record PhoneNumbers : Type := mkPhoneNumbers {
  numbers : list (option cstring);
  size : nat
}.

Definition phnumNew : PhoneNumbers :=
  {| numbers := [None]; size := 0 |}.

Definition phnumGet (pnum : option PhoneNumbers) (idx : nat)
  : option cstring :=
  match pnum with
  | None => None
  | Some p => if size p <=? idx then None else nth idx (numbers p) None
  end.

(** ** Forward lookup *)

(** [phoneForwardGet(pf, num, &pn, &j, i)]; [rest] is [num + i], the pair
    [(pn, j)] is passed in and returned.  The source only calls it on a
    node. *)
Fixpoint phoneForwardGet (pf : PhoneForward) (rest : cstring)
    (pn : option cstring) (j i : nat) : option cstring * nat :=
  match pf with
  | NULL => (pn, j)
  | Node fwd cs =>
      let '(pn, j) :=
        match fwd with
        | Some t => (Some t, i)
        | None => (pn, j)
        end in
      match rest with
      | [] => (pn, j)
      | c :: rest' =>
          match child cs (charToInt c) with
          | NULL => (pn, j)
          | sub => phoneForwardGet sub rest' pn j (i + 1)
          end
      end
  end.

(** The list returned for a number that is not valid: [phnumNew] with
    its size set to one, so that its only slot holds [NULL]. *)
Definition phnumInvalid : PhoneNumbers :=
  {| numbers := numbers phnumNew; size := 1 |}.

Definition phfwdGet (pf : PhoneForward) (num : option cstring)
  : option PhoneNumbers :=
  match pf with
  | NULL => None
  | _ =>
      if negb (isNumberOk num) then Some phnumInvalid
      else
        let s := match num with Some s => s | None => [] end in
        let '(pn, j) := phoneForwardGet pf s None 0 0 in
        let first := match pn with None => [] | Some t => t end in
        Some {| numbers := [Some (first ++ skipn j s)]; size := 1 |}
  end.

(** ** Reverse lookup *)

(** [isPrefixOf(prefix, num)] *)
Definition isPrefixOf (prefix num : cstring) : bool :=
  let len := strlen prefix in
  if strlen num <? len then false
  else
    forallb (fun i => Ascii.eqb (nth i prefix zero) (nth i num zero))
      (seq 0 len).

(** [comparator]: the loop over the common positions, then the lengths. *)
Fixpoint comparator (num1 num2 : cstring) : Z :=
  match num1, num2 with
  | [], [] => 0%Z
  | [], _ :: _ => (-1)%Z
  | _ :: _, [] => 1%Z
  | a :: r1, b :: r2 =>
      if charToInt b <? charToInt a then 1%Z
      else if charToInt a <? charToInt b then (-1)%Z
      else comparator r1 r2
  end.

(** [qsort] of the C library with [comparator].  The library fixes no
    algorithm; the embedding sorts by insertion.  [qsort_unique] below
    shows that on valid numbers every sorted permutation is this one. *)
Fixpoint insert (x : cstring) (l : list cstring) : list cstring :=
  match l with
  | [] => [x]
  | y :: l' =>
      if (comparator x y <=? 0)%Z then x :: y :: l' else y :: insert x l'
  end.

Fixpoint qsort (l : list cstring) : list cstring :=
  match l with
  | [] => []
  | x :: l' => insert x (qsort l')
  end.

(** The loop [for (i = 0; i < BASE; i++)] of [reverse] over the child
    array [l], from slot [i] on; [rev] is the recursive call on a child
    with the path buffer extended by the symbol of the slot. *)
Definition childrenLoop
    (rev : PhoneForward -> cstring -> list cstring -> list cstring)
    (currentNum : cstring)
  : list PhoneForward -> nat -> list cstring -> list cstring :=
  fix loop (l : list PhoneForward) (i : nat) (pn : list cstring)
    : list cstring :=
    match l with
    | [] => pn
    | c :: l' =>
        if i <? BASE
        then loop l' (S i) (rev c (currentNum ++ [intToChar i]) pn)
        else pn
    end.

(** What [reverse] appends at a node: [currentNum] followed by
    [reverseNum] without the target, when the target is a prefix of
    [reverseNum]. *)
Definition emit (fwd : option cstring) (reverseNum currentNum : cstring)
  : list cstring :=
  match fwd with
  | Some t =>
      if isPrefixOf t reverseNum
      then [currentNum ++ skipn (strlen t) reverseNum]
      else []
  | None => []
  end.

(** [reverse(pf, reverseNum, &currentNum, index, &currentNumSize, pn, &j)].
    [currentNum] is the first [index] characters of the path buffer, the
    only ones that are read; [pn] is the first [j] cells of [pn->numbers].
    The growth of both buffers by [newSize] has no counterpart. *)
Fixpoint reverse (pf : PhoneForward) (reverseNum currentNum : cstring)
    (pn : list cstring) : list cstring :=
  match pf with
  | NULL => pn
  | Node fwd cs =>
      childrenLoop (fun c cur pn' => reverse c reverseNum cur pn')
        currentNum cs 0 (pn ++ emit fwd reverseNum currentNum)
  end.

(** The copying loop of [phfwdReverse]: cell [i] is kept when it differs
    from cell [i + 1]; the last cell is added after the loop. *)
Fixpoint copyDistinct (l : list cstring) : list cstring :=
  match l with
  | x :: (y :: _) as tl =>
      if streq x y then copyDistinct tl else x :: copyDistinct tl
  | _ => []
  end.

(** The cells of the list [phfwdReverse] returns, from the sorted
    cells. *)
Definition distinct (pn : list cstring) : list cstring :=
  copyDistinct pn ++ [last pn []].

Definition phfwdReverse (pf : PhoneForward) (num : option cstring)
  : option PhoneNumbers :=
  match pf with
  | NULL => None
  | _ =>
      if negb (isNumberOk num) then Some phnumInvalid
      else
        let s := match num with Some s => s | None => [] end in
        let pn := qsort (reverse pf s [] [] ++ [s]) in
        Some {| numbers := map Some (distinct pn);
                size := length (copyDistinct pn) + 1 |}
  end.

(** The test of the loop of [phfwdGetReverse].  The source hands
    [testPn->numbers[0]] to [strcmp] unchecked; a [NULL] there counts as
    different from [num] ([reverse_candidates_valid] shows that the case
    does not arise on a trie whose root holds no target). *)
Definition forwardsTo (pf : PhoneForward) (num : cstring)
    (y : option cstring) : bool :=
  match phfwdGet pf y with
  | None => false
  | Some testPn =>
      negb (size testPn =? 0) &&
      match nth 0 (numbers testPn) None with
      | Some r => streq r num
      | None => false
      end
  end.

(** The loop of [phfwdGetReverse] over the cells of [pn], [acc] being the
    first [k] cells of [pnReturn->numbers]. *)
Fixpoint getReverseLoop (pf : PhoneForward) (num : cstring)
    (cells acc : list (option cstring)) : list (option cstring) :=
  match cells with
  | [] => acc
  | y :: cells' =>
      if forwardsTo pf num y
      then getReverseLoop pf num cells' (acc ++ [y])
      else getReverseLoop pf num cells' acc
  end.

Definition phfwdGetReverse (pf : PhoneForward) (num : option cstring)
  : option PhoneNumbers :=
  match pf with
  | NULL => None
  | _ =>
      if negb (isNumberOk num) then Some phnumInvalid
      else
        let s := match num with Some s => s | None => [] end in
        match phfwdReverse pf num with
        | None => None
        | Some pn =>
            let ret :=
              getReverseLoop pf s (firstn (size pn) (numbers pn)) [] in
            Some {| numbers := ret; size := length ret |}
        end
  end.

(** ** Specification vocabulary *)

(** The node reached from [pf] along a path of child indices; [NULL] when
    the path leaves the trie. *)
Fixpoint subtrie (pf : PhoneForward) (path : list nat) : PhoneForward :=
  match path with
  | [] => pf
  | k :: path' =>
      match pf with
      | NULL => NULL
      | Node _ cs => subtrie (child cs k) path'
      end
  end.

Definition target (pf : PhoneForward) : option cstring :=
  match pf with
  | NULL => None
  | Node fwd _ => fwd
  end.

(** The rule registered for exactly this path, if any. *)
Definition target_at (pf : PhoneForward) (path : list nat)
  : option cstring :=
  target (subtrie pf path).

(** The child indices a number selects. *)
Definition codes (s : cstring) : list nat := map charToInt s.

Definition symbols (s : cstring) : Prop := forallb isSymbol s = true.

Definition valid (s : cstring) : Prop := isNumberOk (Some s) = true.

(** A stored target is either absent or a valid number. *)
Definition isNumberOk_opt (fwd : option cstring) : bool :=
  match fwd with
  | None => true
  | Some t => isNumberOk (Some t)
  end.

(** The order of the specification on numbers: position by position by
    symbol code, a proper prefix being smaller. *)
Inductive code_le : cstring -> cstring -> Prop :=
| code_le_nil b : code_le [] b
| code_le_lt a b r1 r2 :
    charToInt a < charToInt b -> code_le (a :: r1) (b :: r2)
| code_le_eq a b r1 r2 :
    charToInt a = charToInt b -> code_le r1 r2 ->
    code_le (a :: r1) (b :: r2).

(** [x] is a candidate for [n]: some node, of root path [P], holds a
    target [t] that is a prefix of [n], and [x] is [P] followed by the
    rest of [n]. *)
Definition candidate (pf : PhoneForward) (n x : cstring) : Prop :=
  exists P t s,
    symbols P /\ target_at pf (codes P) = Some t /\
    n = t ++ s /\ x = P ++ s.

(** The strings of the list [phfwdReverse] returns for a valid number. *)
Definition reverseCells (pf : PhoneForward) (n : cstring) : list cstring :=
  distinct (qsort (reverse pf n [] [] ++ [n])).

(** The test of the specification on a candidate [y]: the single element
    of the list [phfwdGet] returns for [y] is [n]. *)
Definition resolvesTo (pf : PhoneForward) (n : cstring)
    (y : option cstring) : bool :=
  match phnumGet (phfwdGet pf y) 0 with
  | Some r => streq r n
  | None => false
  end.

(** Two tries hold the same rules. *)
Definition same_rules (pf pf' : PhoneForward) : Prop :=
  forall path, target_at pf' path = target_at pf path.

(** [comparator] as a relation: not after, and strictly before. *)
Definition le_num (a b : cstring) : Prop := (comparator a b <= 0)%Z.
Definition lt_num (a b : cstring) : Prop := (comparator a b < 0)%Z.

(** A list that reports size one and whose cell [0] is the absent
    marker. *)
Definition degenerate (res : option PhoneNumbers) : Prop :=
  exists p, res = Some p /\ size p = 1 /\ phnumGet (Some p) 0 = None.

(** A list of [out], all of whose cells hold a string. *)
Definition holds (res : option PhoneNumbers) (out : list cstring) : Prop :=
  res = Some {| numbers := map Some out; size := length out |}.

(** The rule at depth [j] on the path of [n] is the deepest one. *)
Definition deepest_rule (pf : PhoneForward) (n : cstring) (j : nat)
    (t : cstring) : Prop :=
  j <= length n /\
  target_at pf (codes (firstn j n)) = Some t /\
  forall k, j < k -> k <= length n ->
    target_at pf (codes (firstn k n)) = None.

(** No node on the path of [n] holds a rule. *)
Definition no_rule (pf : PhoneForward) (n : cstring) : Prop :=
  forall k, k <= length n -> target_at pf (codes (firstn k n)) = None.

(** The invariant of the tries the interface builds: every node has its
    [BASE] child slots and every stored target is a valid number. *)
Fixpoint wf (pf : PhoneForward) : bool :=
  match pf with
  | NULL => true
  | Node fwd cs =>
      (length cs =? BASE) && isNumberOk_opt fwd && forallb wf cs
  end.

(** The tries a client can hold: made by [phfwdNew], changed by
    [phfwdAdd] and [phfwdRemove]. *)
Inductive built : PhoneForward -> Prop :=
| built_new al pf al' :
    phfwdNew al = (pf, al') -> pf <> NULL -> built pf
| built_add al pf num1 num2 r pf' al' :
    built pf -> phfwdAdd al pf num1 num2 = (r, pf', al') -> built pf'
| built_remove pf num :
    built pf -> built (phfwdRemove pf num).

(** The trie in which [t] has been stored at [path], missing nodes being
    created on the way: what a successful [addPhoneForward] leaves. *)
Fixpoint store (pf : PhoneForward) (path : list nat) (t : cstring)
  : PhoneForward :=
  let fwd := target pf in
  let cs :=
    match pf with NULL => repeat NULL BASE | Node _ cs => cs end in
  match path with
  | [] => Node (Some t) cs
  | k :: path' => Node fwd (setChild cs k (store (child cs k) path' t))
  end.

(** ** Induction on tries *)

Section PhoneForwardInd.

Variable P : PhoneForward -> Prop.
Hypothesis P_NULL : P NULL.
Hypothesis P_Node : forall fwd cs, Forall P cs -> P (Node fwd cs).

Fixpoint PhoneForward_nested_ind (pf : PhoneForward) : P pf :=
  match pf with
  | NULL => P_NULL
  | Node fwd cs =>
      P_Node fwd
        ((fix all (l : list PhoneForward) : Forall P l :=
            match l with
            | [] => Forall_nil P
            | c :: l' =>
                Forall_cons c (PhoneForward_nested_ind c) (all l')
            end) cs)
  end.

End PhoneForwardInd.

(** ** Example tries *)

Definition trie_12_123 : PhoneForward :=
  snd (fst (phfwdAdd []
    (snd (fst (phfwdAdd [] (fst (phfwdNew [])) (Some (str "12"))
                 (Some (str "1")))))
    (Some (str "123")) (Some (str "2")))).


Definition trie_empty : PhoneForward := fst (phfwdNew []).

Definition trie_123_1234 : PhoneForward :=
  snd (fst (phfwdAdd []
    (snd (fst (phfwdAdd [] trie_empty (Some (str "123"))
                 (Some (str "5")))))
    (Some (str "1234")) (Some (str "6")))).

Definition trie_13 : PhoneForward :=
  snd (fst (phfwdAdd [] trie_empty (Some (str "13")) (Some (str "5")))).

Definition trie_1 : PhoneForward :=
  snd (fst (phfwdAdd [] trie_empty (Some (str "1")) (Some (str "2")))).

(** A trie on which [phfwdAdd] of ["12"] failed at the second node. *)
Definition trie_half_12 : PhoneForward :=
  snd (fst (phfwdAdd [true; false] trie_empty (Some (str "12"))
              (Some (str "3")))).

(** [trie_123_1234] after a [phfwdAdd] of ["12999"] whose second
    allocation fails. *)
Definition trie_half_12999 : PhoneForward :=
  snd (fst (phfwdAdd [true; false] trie_123_1234 (Some (str "12999"))
              (Some (str "7")))).

Definition trie_12_to_3 : PhoneForward :=
  snd (fst (phfwdAdd [] trie_empty (Some (str "12")) (Some (str "3")))).

Definition trie_12_to_4 : PhoneForward :=
  snd (fst (phfwdAdd [] trie_12_to_3 (Some (str "12")) (Some (str "4")))).


(** ** Sizes of buffers *)

Module SizeT.

(** [size_t]: the naturals up to [SIZE_MAX]; a sum, product or difference
    that leaves the range wraps around. *)
Definition wrap (SIZE_MAX x : N) : N := (x mod (SIZE_MAX + 1))%N.

Definition sub (SIZE_MAX a b : N) : N :=
  wrap SIZE_MAX (a + (SIZE_MAX + 1) - b).

(** [newSize(size)] *)
Definition newSize (SIZE_MAX size : N) : N :=
  if (sub SIZE_MAX (SIZE_MAX / 2) 1 <? size)%N then SIZE_MAX
  else wrap SIZE_MAX (wrap SIZE_MAX (size * 2) + 1).

(** [min(a, b)] *)
Definition min (a b : nat) : nat := if a <=? b then a else b.

End SizeT.

(** [comparator] as the source writes it: the loop on [i] up to
    [min(len1, len2)], which returns at the first position where the codes
    differ, then the comparison of the lengths.  [todo] counts the
    iterations that are left. *)
Fixpoint comparatorLoop (num1 num2 : cstring) (i todo : nat) : option Z :=
  match todo with
  | O => None
  | S todo' =>
      let c1 := charToInt (nth i num1 zero) in
      let c2 := charToInt (nth i num2 zero) in
      if c2 <? c1 then Some 1%Z
      else if c1 <? c2 then Some (-1)%Z
      else comparatorLoop num1 num2 (S i) todo'
  end.

Definition comparatorIndexed (num1 num2 : cstring) : Z :=
  let len1 := strlen num1 in
  let len2 := strlen num2 in
  match comparatorLoop num1 num2 0 (SizeT.min len1 len2) with
  | Some r => r
  | None =>
      if len1 <? len2 then (-1)%Z
      else if len2 <? len1 then 1%Z
      else 0%Z
  end.

(** ** More vocabulary *)

(** No rule forwards a prefix to itself. *)
Definition no_self_forward (pf : PhoneForward) : Prop :=
  forall P t, symbols P -> target_at pf (codes P) = Some t -> t <> P.

(** [p] is a textual prefix of [n]. *)
Definition prefix_of (p n : cstring) : Prop := exists s, n = p ++ s.

(** The three queries agree on two tries. *)
Definition same_answers (pf pf' : PhoneForward) : Prop :=
  forall q,
    phfwdGet pf' q = phfwdGet pf q /\
    phfwdReverse pf' q = phfwdReverse pf q /\
    phfwdGetReverse pf' q = phfwdGetReverse pf q.

(** The alphabet, in the order of the codes. *)
Definition alphabet : cstring := str "0123456789*#".

Definition size_max_64 : N := 18446744073709551615%N.

Definition trie_12_to_1 : PhoneForward :=
  snd (fst (phfwdAdd [] trie_empty (Some (str "12")) (Some (str "1")))).

(** Two prefixes forwarded to the same number. *)
Definition trie_1_2_to_5 : PhoneForward :=
  snd (fst (phfwdAdd []
    (snd (fst (phfwdAdd [] trie_empty (Some (str "1")) (Some (str "5")))))
    (Some (str "2")) (Some (str "5")))).

(** Every cell below the size holds a valid number, and [phnumGet]
    returns [NULL] from the size on. *)
Definition valid_cells (res : option PhoneNumbers) : Prop :=
  exists p,
    res = Some p /\
    forall idx,
      (idx < size p -> exists s, phnumGet res idx = Some s /\ valid s) /\
      (size p <= idx -> phnumGet res idx = None).

(** ** The buffers of [reverse] *)

(** The height of a trie: the number of nodes on its longest branch. *)
Fixpoint height (pf : PhoneForward) : nat :=
  match pf with
  | NULL => 0
  | Node _ cs => S (list_max (map height cs))
  end.

Module Buf.

(** What [reverse] reaches through its pointer arguments: the bytes
    allocated at [*currentNum] and [*currentNumSize], the cells allocated
    at [pn->numbers] and [pn->size], and [*j]. *)
Record state : Type := mkState {
  currentNum : list ascii;
  currentNumSize : N;
  pnNumbers : list (option cstring);
  pnSize : N;
  j : N
}.

(** [realloc] to a block that holds [n] elements, [n] being what the
    number of bytes asked for leaves room for (see [elements] below): the
    common part is kept; the content of the new elements is not
    determined, they hold [d] here. *)
Definition realloc (A : Type) (d : A) (l : list A) (n : N) : list A :=
  firstn (N.to_nat n) l ++ repeat d (N.to_nat n - length l).

(** [l[i] = x]; [None] when [i] is not below the number of elements
    allocated. *)
Definition write (A : Type) (l : list A) (i : N) (x : A)
  : option (list A) :=
  if N.to_nat i <? length l
  then Some (firstn (N.to_nat i) l ++ x :: skipn (S (N.to_nat i)) l)
  else None.

(** The [n] first bytes of a buffer, as [strncpy] reads them; [None]
    when fewer are allocated.  Reading no byte of a buffer that is still
    [NULL] counts as inside. *)
Definition read (l : list ascii) (n : N) : option cstring :=
  if N.to_nat n <=? length l then Some (firstn (N.to_nat n) l) else None.

(** [sizeof(char)], which C fixes to 1. *)
Definition sizeof_char : N := 1.

(** The argument of [malloc] and [realloc] is a number of bytes, the
    product [n * sizeof(T)] taken in [size_t]: the block holds as many
    elements of [width] bytes as fit in that many bytes. *)
Definition elements (SIZE_MAX width n : N) : N :=
  (SizeT.wrap SIZE_MAX (n * width) / width)%N.

(** The test of [*j] against [pn->size], with [newSize] and [realloc] of
    [pn->size * sizeof(char * )] bytes when they are equal; [PTR] is
    [sizeof(char * )]. *)
Definition growNumbers (SIZE_MAX PTR : N) (st : state) : state :=
  if (j st =? pnSize st)%N
  then
    let size' := SizeT.newSize SIZE_MAX (pnSize st) in
    mkState (currentNum st) (currentNumSize st)
      (realloc None (pnNumbers st) (elements SIZE_MAX PTR size'))
      size' (j st)
  else st.

(** The test of [index] against [*currentNumSize], with [newSize] and
    [realloc] of [*currentNumSize * sizeof(char)] bytes when they are
    equal. *)
Definition growCurrentNum (SIZE_MAX : N) (index : N) (st : state) : state :=
  if (index =? currentNumSize st)%N
  then
    let size' := SizeT.newSize SIZE_MAX (currentNumSize st) in
    mkState
      (realloc zero (currentNum st) (elements SIZE_MAX sizeof_char size'))
      size' (pnNumbers st) (pnSize st) (j st)
  else st.

(** The bytes given by
    [malloc((index + lenReverseNum - lenForwardNumber + 1) * sizeof(char))],
    every operation in [size_t]. *)
Definition candidateBytes (SIZE_MAX index lenReverseNum lenForwardNumber : N)
  : N :=
  elements SIZE_MAX sizeof_char
    (SizeT.wrap SIZE_MAX
       (SizeT.sub SIZE_MAX (SizeT.wrap SIZE_MAX (index + lenReverseNum))
          lenForwardNumber + 1)).

(** The third argument of the second [strncpy],
    [lenReverseNum - lenForwardNumber + 1]. *)
Definition restCount (SIZE_MAX lenReverseNum lenForwardNumber : N) : N :=
  SizeT.wrap SIZE_MAX
    (SizeT.sub SIZE_MAX lenReverseNum lenForwardNumber + 1).

(** The first [if] of [reverse]: a candidate is written in cell [*j].
    The two [strncpy] write [index] bytes, then [restCount] bytes from
    byte [index] on, in the block of [candidateBytes] bytes: [None] when
    they leave the block, or when the count is too small for the rest of
    [reverseNum] and its final [NUL].  [strlen] gives the lengths as they
    are; that they fit in [size_t] is a hypothesis of the theorems. *)
Definition emit (SIZE_MAX PTR : N) (fwd : option cstring)
    (reverseNum : cstring) (index : N) (st : state) : option state :=
  match fwd with
  | None => Some st
  | Some t =>
      if isPrefixOf t reverseNum
      then
        let st1 := growNumbers SIZE_MAX PTR st in
        let lenReverseNum := N.of_nat (strlen reverseNum) in
        let lenForwardNumber := N.of_nat (strlen t) in
        let bytes :=
          candidateBytes SIZE_MAX index lenReverseNum lenForwardNumber in
        let count := restCount SIZE_MAX lenReverseNum lenForwardNumber in
        let rest := skipn (strlen t) reverseNum in
        if ((index + count <=? bytes) &&
            (N.of_nat (strlen rest) + 1 <=? count))%N
        then
          match read (currentNum st1) index with
          | None => None
          | Some path =>
              match write (pnNumbers st1) (j st1) (Some (path ++ rest)) with
              | None => None
              | Some cells =>
                  Some (mkState (currentNum st1) (currentNumSize st1) cells
                          (pnSize st1) (SizeT.wrap SIZE_MAX (j st1 + 1)))
              end
          end
        else None
      else Some st
  end.

(** The loop of [reverse] over the child slots, from slot [i] on: on a
    node with its [BASE] slots, the loop for [i] below [BASE].  Each turn
    writes the symbol of the slot at [index] before it descends. *)
Definition childrenLoop (SIZE_MAX : N)
    (rev : PhoneForward -> N -> state -> option state) (index : N)
  : list PhoneForward -> nat -> state -> option state :=
  fix loop (l : list PhoneForward) (i : nat) (st : state) : option state :=
    match l with
    | [] => Some st
    | c :: l' =>
        if i <? BASE
        then
          let st1 := growCurrentNum SIZE_MAX index st in
          match write (currentNum st1) index (intToChar i) with
          | None => None
          | Some bytes =>
              match
                rev c (SizeT.wrap SIZE_MAX (index + 1))
                  (mkState bytes (currentNumSize st1) (pnNumbers st1)
                     (pnSize st1) (j st1))
              with
              | None => None
              | Some st2 => loop l' (S i) st2
              end
          end
        else Some st
    end.

(** [reverse] on its buffers; [None] when a read or a write leaves the
    allocated memory.  The allocations themselves are taken to succeed,
    with the number of bytes the source asks for. *)
Fixpoint reverse (SIZE_MAX PTR : N) (pf : PhoneForward)
    (reverseNum : cstring) (index : N) (st : state) : option state :=
  match pf with
  | NULL => Some st
  | Node fwd cs =>
      match emit SIZE_MAX PTR fwd reverseNum index st with
      | None => None
      | Some st1 =>
          childrenLoop SIZE_MAX
            (fun c idx s => reverse SIZE_MAX PTR c reverseNum idx s)
            index cs 0 st1
      end
  end.

(** The state in which [phfwdReverse] calls [reverse]: [currentNum] is
    [NULL], [pn] comes from [phnumNew]. *)
Definition initial : state :=
  mkState [] 0 (numbers phnumNew) (N.of_nat (size phnumNew)) 0.

(** The body of the [if] in the loop of [phfwdGetReverse]: the list grows
    when [k] has reached its size, then cell [k] receives a block of
    [(strlen(y) + 1) * sizeof(char)] bytes in which [strcpy] writes [y]
    and its final [NUL], and [k] moves on.  [pnReturn] and [k] take the
    places of [pn] and [j]; [None] when [y] is [NULL] or a write leaves
    the memory allocated. *)
Definition push (SIZE_MAX PTR : N) (y : option cstring) (st : state)
  : option state :=
  let st1 := growNumbers SIZE_MAX PTR st in
  match y with
  | None => None
  | Some s =>
      let bytes :=
        elements SIZE_MAX sizeof_char
          (SizeT.wrap SIZE_MAX (N.of_nat (strlen s) + 1)) in
      if (N.of_nat (strlen s) + 1 <=? bytes)%N
      then
        match write (pnNumbers st1) (j st1) (Some s) with
        | None => None
        | Some cells =>
            Some (mkState (currentNum st1) (currentNumSize st1) cells
                    (pnSize st1) (SizeT.wrap SIZE_MAX (j st1 + 1)))
        end
      else None
  end.

(** The loop of [phfwdGetReverse] over the cells of [pn]. *)
Fixpoint getReverseLoop (SIZE_MAX PTR : N) (pf : PhoneForward)
    (num : cstring) (cells : list (option cstring)) (st : state)
  : option state :=
  match cells with
  | [] => Some st
  | y :: cells' =>
      if forwardsTo pf num y
      then
        match push SIZE_MAX PTR y st with
        | None => None
        | Some st' => getReverseLoop SIZE_MAX PTR pf num cells' st'
        end
      else getReverseLoop SIZE_MAX PTR pf num cells' st
  end.


End Buf.



(** ** The alphabet *)

Lemma isSymbol_cases c :
  isSymbol c = true ->
  (48 <= nat_of_ascii c <= 57) \/ c = star \/ c = hash.
Proof.
  unfold isSymbol, isdigit. intros H.
  apply orb_true_iff in H as [H | H].
  - apply orb_true_iff in H as [H | H].
    + apply andb_true_iff in H as [H1 H2].
      apply Nat.leb_le in H1. apply Nat.leb_le in H2. left. lia.
    + apply Ascii.eqb_eq in H. auto.
  - apply Ascii.eqb_eq in H. auto.
Qed.

Lemma charToInt_lt c : charToInt c < BASE.
Proof.
  unfold charToInt, isdigit, BASE.
  destruct (48 <=? nat_of_ascii c) eqn:H1;
    destruct (nat_of_ascii c <=? 57) eqn:H2; simpl;
    try (destruct (Ascii.eqb c star); lia).
  apply Nat.leb_le in H1. apply Nat.leb_le in H2. lia.
Qed.

Lemma intToChar_charToInt c :
  isSymbol c = true -> intToChar (charToInt c) = c.
Proof.
  intros H. destruct (isSymbol_cases c H) as [Hd | [-> | ->]];
    try reflexivity.
  unfold charToInt, isdigit.
  replace (48 <=? nat_of_ascii c) with true
    by (symmetry; apply Nat.leb_le; lia).
  replace (nat_of_ascii c <=? 57) with true
    by (symmetry; apply Nat.leb_le; lia).
  simpl. unfold intToChar.
  replace (nat_of_ascii c - 48 <=? 9) with true
    by (symmetry; apply Nat.leb_le; lia).
  replace (48 + (nat_of_ascii c - 48)) with (nat_of_ascii c) by lia.
  apply ascii_nat_embedding.
Qed.

Lemma charToInt_intToChar k : k < BASE -> charToInt (intToChar k) = k.
Proof.
  unfold BASE. intros H.
  do 12 (destruct k as [| k]; [reflexivity |]). lia.
Qed.

Lemma isSymbol_intToChar k : isSymbol (intToChar k) = true.
Proof.
  unfold intToChar.
  destruct (k <=? 9) eqn:H.
  - apply Nat.leb_le in H.
    do 10 (destruct k as [| k]; [reflexivity |]). lia.
  - destruct (k =? 10); reflexivity.
Qed.

Lemma charToInt_inj a b :
  isSymbol a = true -> isSymbol b = true ->
  charToInt a = charToInt b -> a = b.
Proof.
  intros Ha Hb H.
  rewrite <- (intToChar_charToInt a Ha), <- (intToChar_charToInt b Hb).
  now rewrite H.
Qed.

Lemma symbols_cons c s :
  symbols (c :: s) <-> isSymbol c = true /\ symbols s.
Proof. unfold symbols. simpl. apply andb_true_iff. Qed.

Lemma symbols_app a b : symbols (a ++ b) <-> symbols a /\ symbols b.
Proof.
  unfold symbols. rewrite forallb_app. apply andb_true_iff.
Qed.

Lemma symbols_skipn n s : symbols s -> symbols (skipn n s).
Proof.
  intros H. rewrite <- (firstn_skipn n s) in H.
  now apply symbols_app in H.
Qed.

Lemma valid_iff s : valid s <-> s <> [] /\ symbols s.
Proof.
  unfold valid, symbols, isNumberOk. destruct s as [| c s].
  - split; [discriminate | intros [H _]; congruence].
  - split; [intros H; split; [discriminate | exact H] | intros [_ H]; exact H].
Qed.

(** [isSymbol] accepts the twelve symbols and nothing else. *)
Lemma isSymbol_alphabet c :
  isSymbol c = true <-> In c (str "0123456789*#").
Proof.
  split.
  - destruct c as [[|] [|] [|] [|] [|] [|] [|] [|]]; vm_compute;
      intros H; try discriminate H; tauto.
  - intros H. simpl in H. decompose [or] H; subst; try reflexivity.
    contradiction.
Qed.

(** A number fails [isNumberOk] when it is absent, empty, or has a
    character outside the alphabet. *)
Lemma forallb_false_iff (A : Type) (f : A -> bool) l :
  forallb f l = false <-> exists x, In x l /\ f x = false.
Proof.
  induction l as [| a l IH]; simpl.
  - split; [discriminate | intros (x & [] & _)].
  - rewrite andb_false_iff, IH. split.
    + intros [H | (x & Hin & Hx)]; [exists a; auto | exists x; auto].
    + intros (x & [<- | Hin] & Hx); [now left | right; now exists x].
Qed.

Lemma isNumberOk_false num :
  isNumberOk num = false <->
  num = None \/ num = Some [] \/
  exists s c, num = Some s /\ In c s /\ isSymbol c = false.
Proof.
  destruct num as [[| a s] |]; simpl.
  - split; auto.
  - change (isSymbol a && forallb isSymbol s)
      with (forallb isSymbol (a :: s)).
    rewrite forallb_false_iff. split.
    + intros (c & Hin & Hc). right. right. now exists (a :: s), c.
    + intros [H | [H | (s' & c & [= <-] & Hin & Hc)]]; try discriminate.
      now exists c.
  - split; auto.
Qed.

Lemma intToChar_codes s : symbols s -> map intToChar (codes s) = s.
Proof.
  induction s as [| c s IH]; intros H; [reflexivity |].
  apply symbols_cons in H as [Hc Hs]. simpl.
  now rewrite intToChar_charToInt, IH.
Qed.

Lemma codes_intToChar path :
  Forall (fun k => k < BASE) path -> codes (map intToChar path) = path.
Proof.
  induction 1 as [| k path Hk _ IH]; [reflexivity |]. simpl.
  now rewrite charToInt_intToChar, IH.
Qed.

Lemma symbols_intToChar path : symbols (map intToChar path).
Proof.
  induction path as [| k path IH]; [reflexivity |].
  apply symbols_cons. split; [apply isSymbol_intToChar | exact IH].
Qed.

Lemma codes_lt s : Forall (fun k => k < BASE) (codes s).
Proof.
  induction s; constructor; [apply charToInt_lt | assumption].
Qed.

Lemma codes_app a b : codes (a ++ b) = codes a ++ codes b.
Proof. apply map_app. Qed.

(** ** Strings *)

Lemma strcmp_eq a b : strcmp a b = Eq <-> a = b.
Proof.
  revert b. induction a as [| x a IH]; intros [| y b]; simpl;
    try (split; [discriminate | discriminate]); [tauto |].
  destruct (Nat.compare_spec (nat_of_ascii x) (nat_of_ascii y)) as [E | L | G].
  - assert (x = y) as ->.
    { rewrite <- (ascii_nat_embedding x), <- (ascii_nat_embedding y).
      now rewrite E. }
    rewrite IH. split; [intros -> | intros [= ->]]; reflexivity.
  - split; [discriminate | intros [= -> _]; lia].
  - split; [discriminate | intros [= -> _]; lia].
Qed.

Lemma streq_true a b : streq a b = true <-> a = b.
Proof.
  unfold streq. rewrite <- strcmp_eq.
  destruct (strcmp a b); split; congruence.
Qed.

Lemma streq_refl a : streq a a = true.
Proof. now apply streq_true. Qed.

Lemma streq_false a b : streq a b = false <-> a <> b.
Proof.
  rewrite <- streq_true. destruct (streq a b); split; congruence.
Qed.

(** [isPrefixOf] decides "is a textual prefix". *)
Lemma forallb_seq_S (f : nat -> bool) len :
  forallb f (seq 0 (S len)) = f 0 && forallb (fun i => f (S i)) (seq 0 len).
Proof.
  simpl. f_equal. rewrite <- seq_shift.
  induction (seq 0 len) as [| i l IH]; [reflexivity |].
  simpl. now rewrite IH.
Qed.

Lemma isPrefixOf_nil num : isPrefixOf [] num = true.
Proof. reflexivity. Qed.

Lemma isPrefixOf_cons_nil a p : isPrefixOf (a :: p) [] = false.
Proof. reflexivity. Qed.

Lemma isPrefixOf_cons a p b num :
  isPrefixOf (a :: p) (b :: num) = Ascii.eqb a b && isPrefixOf p num.
Proof.
  unfold isPrefixOf, strlen. cbn [length].
  change (S (length num) <? S (length p)) with (length num <? length p).
  destruct (length num <? length p).
  - now rewrite andb_false_r.
  - now rewrite forallb_seq_S.
Qed.

Lemma isPrefixOf_spec p num :
  isPrefixOf p num = true <-> exists s, num = p ++ s.
Proof.
  revert num. induction p as [| a p IH]; intros num.
  - rewrite isPrefixOf_nil. split; [exists num; reflexivity | reflexivity].
  - destruct num as [| b num].
    + rewrite isPrefixOf_cons_nil. split; [discriminate |].
      intros [s H]. discriminate.
    + rewrite isPrefixOf_cons, andb_true_iff, Ascii.eqb_eq, IH.
      split.
      * intros [-> [s ->]]. now exists s.
      * intros [s [= -> ->]]. split; [reflexivity | now exists s].
Qed.

Lemma skipn_strlen_app (p s : cstring) : skipn (strlen p) (p ++ s) = s.
Proof.
  unfold strlen. induction p; simpl; auto.
Qed.

(** ** Child arrays *)

Lemma child_nil k : child [] k = NULL.
Proof. unfold child. now destruct k. Qed.

Lemma child_setChild_same cs k x :
  k < length cs -> child (setChild cs k x) k = x.
Proof.
  revert k. induction cs as [| c cs IH]; intros [| k] H; simpl in *;
    try lia; [reflexivity |].
  apply IH. lia.
Qed.

Lemma child_setChild_other cs k k' x :
  k <> k' -> child (setChild cs k x) k' = child cs k'.
Proof.
  revert k k'. induction cs as [| c cs IH]; intros [| k] [| k'] H;
    simpl; try reflexivity; try congruence.
  apply IH. congruence.
Qed.

Lemma child_setChild_NULL cs k : child (setChild cs k NULL) k = NULL.
Proof.
  revert k. induction cs as [| c cs IH]; intros [| k]; simpl;
    try reflexivity.
  apply IH.
Qed.

Lemma setChild_child cs k : setChild cs k (child cs k) = cs.
Proof.
  revert k. induction cs as [| c cs IH]; intros [| k]; simpl;
    try reflexivity.
  unfold child in IH. now rewrite IH.
Qed.

Lemma setChild_setChild cs k x y :
  setChild (setChild cs k x) k y = setChild cs k y.
Proof.
  revert k. induction cs as [| c cs IH]; intros [| k]; simpl;
    try reflexivity.
  now rewrite IH.
Qed.

Lemma length_setChild cs k x : length (setChild cs k x) = length cs.
Proof.
  revert k. induction cs as [| c cs IH]; intros [| k]; simpl;
    try reflexivity.
  now rewrite IH.
Qed.

Lemma child_repeat_NULL n k : child (repeat NULL n) k = NULL.
Proof.
  unfold child. revert k. induction n as [| n IH]; intros [| k]; simpl;
    auto.
Qed.

Lemma Forall_child (P : PhoneForward -> Prop) cs k :
  P NULL -> Forall P cs -> P (child cs k).
Proof.
  intros H0 H. unfold child. revert k.
  induction H as [| c cs Hc _ IH]; intros [| k]; simpl; auto.
Qed.

(** ** Paths *)

Lemma subtrie_NULL path : subtrie NULL path = NULL.
Proof. now destruct path. Qed.

Lemma subtrie_app pf p q : subtrie pf (p ++ q) = subtrie (subtrie pf p) q.
Proof.
  revert pf. induction p as [| k p IH]; intros pf; [reflexivity |].
  simpl. destruct pf; [now rewrite subtrie_NULL | apply IH].
Qed.

Lemma target_at_NULL path : target_at NULL path = None.
Proof. unfold target_at. now rewrite subtrie_NULL. Qed.

Lemma target_at_cons fwd cs k path :
  target_at (Node fwd cs) (k :: path) = target_at (child cs k) path.
Proof. reflexivity. Qed.

(** Rewriting with the facts on slots and paths. *)
Create Rewrite HintDb trie.
#[local] Hint Rewrite child_nil child_setChild_NULL child_repeat_NULL
  setChild_child setChild_setChild length_setChild
  subtrie_NULL target_at_NULL target_at_cons : trie.

(** ** Forward lookup: longest registered prefix *)

Lemma phoneForwardGet_NULL rest pn j i :
  phoneForwardGet NULL rest pn j i = (pn, j).
Proof. now destruct rest. Qed.

Lemma phoneForwardGet_cons fwd cs c rest pn j i :
  phoneForwardGet (Node fwd cs) (c :: rest) pn j i =
  phoneForwardGet (child cs (charToInt c)) rest
    (match fwd with Some t => Some t | None => pn end)
    (match fwd with Some _ => i | None => j end) (i + 1).
Proof.
  simpl. destruct fwd; destruct (child cs (charToInt c));
    rewrite ?phoneForwardGet_NULL; reflexivity.
Qed.

Lemma phoneForwardGet_spec rest :
  forall pf pn j i,
    (no_rule pf rest /\ phoneForwardGet pf rest pn j i = (pn, j)) \/
    (exists k t, deepest_rule pf rest k t /\
                 phoneForwardGet pf rest pn j i = (Some t, i + k)).
Proof.
  induction rest as [| c rest IH]; intros pf pn j i.
  - destruct pf as [| [t |] cs].
    + left. split; [intros k _; apply target_at_NULL | reflexivity].
    + right. exists 0, t. simpl. rewrite Nat.add_0_r.
      repeat split; auto. intros k H1 H2. simpl in H2. lia.
    + left. split; [| reflexivity].
      intros k Hk. simpl in Hk. now replace k with 0 by lia.
  - destruct pf as [| fwd cs].
    + left. split; [intros k _; apply target_at_NULL | reflexivity].
    + rewrite phoneForwardGet_cons.
      destruct (IH (child cs (charToInt c))
                  (match fwd with Some t => Some t | None => pn end)
                  (match fwd with Some _ => i | None => j end) (i + 1))
        as [[Hno Heq] | (k & t & (Hk & Ht & Hdeep) & Heq)].
      * rewrite Heq. destruct fwd as [t |].
        -- right. exists 0, t. rewrite Nat.add_0_r.
           repeat split; auto; [simpl; lia |].
           intros [| k] H1 H2; [lia |]. simpl in *.
           rewrite target_at_cons. apply Hno. lia.
        -- left. split; [| reflexivity].
           intros [| k] Hk; [reflexivity |]. simpl in *.
           rewrite target_at_cons. apply Hno. lia.
      * right. exists (S k), t. rewrite Heq.
        replace (i + S k) with (i + 1 + k) by lia.
        repeat split; auto; [simpl; lia |].
        intros [| k'] H1 H2; [lia |]. simpl in *.
        rewrite target_at_cons. apply Hdeep; lia.
Qed.

(** The value [phfwdGet] computes on a trie and a valid number. *)
Lemma phfwdGet_valid pf n :
  pf <> NULL -> valid n ->
  phfwdGet pf (Some n) =
  Some {| numbers :=
            [Some (let '(pn, j) := phoneForwardGet pf n None 0 0 in
                   match pn with None => [] | Some t => t end ++ skipn j n)];
          size := 1 |}.
Proof.
  intros Hpf Hn. unfold valid in Hn. unfold phfwdGet.
  destruct pf as [| fwd cs]; [congruence |].
  rewrite Hn. cbn [negb].
  now destruct (phoneForwardGet (Node fwd cs) n None 0 0).
Qed.

(** C1.  On a trie and a valid number [n], [phfwdGet] returns a list of
    one element: the target of the deepest node on the path of [n] that
    holds a target, followed by the part of [n] after the [j] symbols that
    lead to that node; when no node on the path holds a target, the
    element is [n]. *)
Theorem phfwdGet_longest_prefix (pf : PhoneForward) (n : cstring) :
  pf <> NULL -> valid n ->
  exists r,
    phfwdGet pf (Some n) = Some {| numbers := [Some r]; size := 1 |} /\
    ((exists j t, deepest_rule pf n j t /\ r = t ++ skipn j n) \/
     (no_rule pf n /\ r = n)).
Proof.
  intros Hpf Hn. rewrite (phfwdGet_valid Hpf Hn).
  eexists. split; [reflexivity |].
  destruct (phoneForwardGet_spec n pf None 0 0)
    as [[Hno Heq] | (k & t & Hdeep & Heq)]; rewrite Heq.
  - right. split; [exact Hno | reflexivity].
  - left. exists k, t. split; [exact Hdeep | reflexivity].
Qed.

Lemma phfwdGet_longest_prefix_witness :
  exists r,
    phfwdGet trie_12_123 (Some (str "1234")) =
      Some {| numbers := [Some r]; size := 1 |} /\
    ((exists j t, deepest_rule trie_12_123 (str "1234") j t /\
                  r = t ++ skipn j (str "1234")) \/
     (no_rule trie_12_123 (str "1234") /\ r = str "1234")).
Proof.
  apply (@phfwdGet_longest_prefix trie_12_123 (str "1234")).
  - vm_compute. discriminate.
  - reflexivity.
Defined.

(** The example of the specification: the longest prefix wins. *)
Example phfwdGet_1234 :
  phnumGet (phfwdGet trie_12_123 (Some (str "1234"))) 0 = Some (str "24").
Proof. reflexivity. Qed.

(** ** Removal *)

Lemma child_setChild cs k x :
  child (setChild cs k x) k = if k <? length cs then x else NULL.
Proof.
  destruct (k <? length cs) eqn:H.
  - apply child_setChild_same. now apply Nat.ltb_lt.
  - apply Nat.ltb_ge in H. unfold child.
    apply nth_overflow. now rewrite length_setChild.
Qed.

Lemma child_overflow cs k : length cs <= k -> child cs k = NULL.
Proof. intros H. unfold child. now apply nth_overflow. Qed.

Lemma phoneForwardRemove_cons2 fwd cs c c' rest :
  phoneForwardRemove (Node fwd cs) (c :: c' :: rest) =
  Node fwd (setChild cs (charToInt c)
              (phoneForwardRemove (child cs (charToInt c)) (c' :: rest))).
Proof. reflexivity. Qed.

Lemma phoneForwardRemove_gone rest :
  rest <> [] ->
  forall pf, subtrie (phoneForwardRemove pf rest) (codes rest) = NULL.
Proof.
  induction rest as [| c rest IH]; [congruence |]. intros _ pf.
  destruct pf as [| fwd cs]; [apply subtrie_NULL |].
  destruct rest as [| c' rest].
  - simpl. apply child_setChild_NULL.
  - rewrite phoneForwardRemove_cons2.
    change (codes (c :: c' :: rest))
      with (charToInt c :: codes (c' :: rest)).
    cbn [subtrie]. rewrite child_setChild.
    destruct (charToInt c <? length cs).
    + apply IH. discriminate.
    + apply subtrie_NULL.
Qed.

Lemma phoneForwardRemove_other rest :
  rest <> [] ->
  forall pf path,
    (forall ext, path <> codes rest ++ ext) ->
    target_at (phoneForwardRemove pf rest) path = target_at pf path.
Proof.
  induction rest as [| c rest IH]; [congruence |]. intros _ pf path Hpath.
  destruct pf as [| fwd cs]; [reflexivity |].
  destruct path as [| k path].
  { destruct rest; reflexivity. }
  destruct (Nat.eq_dec (charToInt c) k) as [<- | Hk].
  - destruct rest as [| c' rest].
    + exfalso. apply (Hpath path). reflexivity.
    + rewrite phoneForwardRemove_cons2, !target_at_cons, child_setChild.
      destruct (charToInt c <? length cs) eqn:Hlen.
      * apply IH; [discriminate |].
        intros ext ->. apply (Hpath ext). reflexivity.
      * apply Nat.ltb_ge in Hlen. now rewrite (child_overflow _ Hlen).
  - destruct rest as [| c' rest].
    + simpl. rewrite !target_at_cons.
      now rewrite child_setChild_other.
    + rewrite phoneForwardRemove_cons2, !target_at_cons.
      now rewrite child_setChild_other.
Qed.

Lemma phoneForwardRemove_absent rest :
  rest <> [] ->
  forall pf, subtrie pf (codes rest) = NULL ->
             phoneForwardRemove pf rest = pf.
Proof.
  induction rest as [| c rest IH]; [congruence |]. intros _ pf H.
  destruct pf as [| fwd cs]; [reflexivity |].
  destruct rest as [| c' rest].
  - simpl in *. fold (child cs (charToInt c)) in H.
    rewrite <- H at 1. now rewrite setChild_child.
  - rewrite phoneForwardRemove_cons2.
    change (codes (c :: c' :: rest))
      with (charToInt c :: codes (c' :: rest)) in H.
    cbn [subtrie] in H.
    rewrite IH; [now rewrite setChild_child | discriminate | exact H].
Qed.

Lemma phfwdRemove_valid pf n :
  valid n -> phfwdRemove pf (Some n) = phoneForwardRemove pf n.
Proof.
  intros Hn. pose proof Hn as Hv. apply valid_iff in Hv as [Hne _].
  unfold valid in Hn. unfold phfwdRemove. rewrite Hn.
  destruct pf; [now destruct n |].
  destruct n; [congruence | reflexivity].
Qed.

Lemma phfwdRemove_invalid pf num :
  isNumberOk num = false -> phfwdRemove pf num = pf.
Proof.
  intros H. unfold phfwdRemove.
  destruct pf; [reflexivity |]. destruct num; [| reflexivity].
  now rewrite H.
Qed.

(** C5.  For a valid number [n], [phfwdRemove] leaves no rule at the node
    of [n] nor at any path that extends it, keeps the rule of every path
    that does not extend [n], and changes nothing when no node exists at
    the path of [n]; for a number that is not valid it changes nothing. *)
Theorem phfwdRemove_subtree (pf : PhoneForward) (n : cstring) :
  valid n ->
  (forall ext, target_at (phfwdRemove pf (Some n)) (codes n ++ ext) = None)
  /\ (forall path, (forall ext, path <> codes n ++ ext) ->
        target_at (phfwdRemove pf (Some n)) path = target_at pf path)
  /\ (subtrie pf (codes n) = NULL -> phfwdRemove pf (Some n) = pf)
  /\ (forall num, isNumberOk num = false -> phfwdRemove pf num = pf).
Proof.
  intros Hn. rewrite (phfwdRemove_valid pf Hn).
  apply valid_iff in Hn as [Hne _].
  repeat split.
  - intros ext. unfold target_at.
    rewrite subtrie_app, phoneForwardRemove_gone by exact Hne.
    now autorewrite with trie.
  - now apply phoneForwardRemove_other.
  - now apply phoneForwardRemove_absent.
  - apply phfwdRemove_invalid.
Qed.

Lemma phfwdRemove_subtree_witness :
  (forall ext,
      target_at (phfwdRemove trie_123_1234 (Some (str "123")))
        (codes (str "123") ++ ext) = None)
  /\ (forall path, (forall ext, path <> codes (str "123") ++ ext) ->
        target_at (phfwdRemove trie_123_1234 (Some (str "123"))) path =
        target_at trie_123_1234 path)
  /\ (subtrie trie_123_1234 (codes (str "123")) = NULL ->
      phfwdRemove trie_123_1234 (Some (str "123")) = trie_123_1234)
  /\ (forall num, isNumberOk num = false ->
        phfwdRemove trie_123_1234 num = trie_123_1234).
Proof.
  apply (@phfwdRemove_subtree trie_123_1234 (str "123")).
  reflexivity.
Defined.

(** The example of the specification: after the removal of ["123"] both
    ["123"] and ["1234"] resolve to themselves. *)
Example phfwdRemove_123 :
  let t := phfwdRemove trie_123_1234 (Some (str "123")) in
  phnumGet (phfwdGet trie_123_1234 (Some (str "1234"))) 0 = Some (str "6") /\
  phnumGet (phfwdGet t (Some (str "123"))) 0 = Some (str "123") /\
  phnumGet (phfwdGet t (Some (str "1234"))) 0 = Some (str "1234").
Proof. repeat split. Qed.

(** ** Rejected additions *)

(** C7.  [phfwdAdd] returns [false] and leaves the trie and the allocator
    untouched when the prefix or the target is not a valid number (absent,
    empty or with a character outside the alphabet) or when both are the
    same number; every query then answers as before. *)
Theorem phfwdAdd_rejects (al : allocator) (pf : PhoneForward)
    (num1 num2 : option cstring) :
  isNumberOk num1 = false \/ isNumberOk num2 = false \/ num1 = num2 ->
  phfwdAdd al pf num1 num2 = (false, pf, al) /\
  forall q, phfwdGet (snd (fst (phfwdAdd al pf num1 num2))) q =
            phfwdGet pf q.
Proof.
  intros H.
  assert (E : phfwdAdd al pf num1 num2 = (false, pf, al)).
  { unfold phfwdAdd. destruct pf as [| fwd cs]; [reflexivity |].
    destruct num1 as [s1 |]; [| reflexivity].
    destruct num2 as [s2 |]; [| reflexivity].
    destruct H as [H | [H | H]].
    - now rewrite H.
    - rewrite H. now rewrite orb_true_r.
    - injection H as ->. rewrite streq_refl. now rewrite orb_true_r. }
  rewrite E. split; reflexivity.
Qed.

(** The example of the specification: a number cannot be forwarded to
    itself, and ["600"] still resolves to ["600"]. *)
Lemma phfwdAdd_rejects_witness :
  phfwdAdd [] trie_empty (Some (str "600")) (Some (str "600")) =
    (false, trie_empty, []) /\
  phnumGet
    (phfwdGet
       (snd (fst (phfwdAdd [] trie_empty (Some (str "600"))
                    (Some (str "600")))))
       (Some (str "600"))) 0 = Some (str "600").
Proof.
  destruct (@phfwdAdd_rejects [] trie_empty (Some (str "600"))
              (Some (str "600"))) as [E G].
  - right. right. reflexivity.
  - split; [exact E |]. rewrite G. reflexivity.
Defined.

(** ** The comparator *)

Ltac cmp_cases a b :=
  destruct (Nat.ltb_spec (charToInt b) (charToInt a));
  destruct (Nat.ltb_spec (charToInt a) (charToInt b)).

Lemma comparator_refl a : comparator a a = 0%Z.
Proof.
  induction a as [| x a IH]; [reflexivity |]. simpl.
  now rewrite Nat.ltb_irrefl.
Qed.

Lemma comparator_antisym a b : comparator b a = (- comparator a b)%Z.
Proof.
  revert b. induction a as [| x a IH]; intros [| y b]; simpl;
    try reflexivity.
  cmp_cases x y; try reflexivity; try lia. apply IH.
Qed.

Lemma comparator_total a b :
  (comparator a b <= 0)%Z \/ (comparator b a <= 0)%Z.
Proof. rewrite (comparator_antisym a b). lia. Qed.

Lemma comparator_eq a b :
  symbols a -> symbols b -> comparator a b = 0%Z -> a = b.
Proof.
  revert b. induction a as [| x a IH]; intros [| y b] Ha Hb; simpl;
    try reflexivity; try discriminate.
  apply symbols_cons in Ha as [Hx Ha]. apply symbols_cons in Hb as [Hy Hb].
  cmp_cases x y; try discriminate. intros Hc.
  f_equal; [apply charToInt_inj; auto; lia | now apply IH].
Qed.

(** Transitivity, with the strict cases. *)
Lemma comparator_trans a :
  forall b c,
    (comparator a b <= 0)%Z -> (comparator b c <= 0)%Z ->
    (comparator a c <= 0)%Z /\
    ((comparator a b < 0)%Z \/ (comparator b c < 0)%Z ->
     (comparator a c < 0)%Z).
Proof.
  induction a as [| x a IH]; intros [| y b] [| z c]; simpl;
    try lia.
  cmp_cases x y; cmp_cases y z; cmp_cases x z; try lia.
  apply IH.
Qed.

Lemma comparator_le_trans a b c :
  (comparator a b <= 0)%Z -> (comparator b c <= 0)%Z ->
  (comparator a c <= 0)%Z.
Proof. intros H1 H2. now apply (comparator_trans a b c). Qed.

Lemma comparator_lt_le_trans a b c :
  (comparator a b < 0)%Z -> (comparator b c <= 0)%Z ->
  (comparator a c < 0)%Z.
Proof.
  intros H1 H2. apply (comparator_trans a b c); [lia | exact H2 | now left].
Qed.

(** [comparator] decides the order of the specification. *)
Lemma comparator_code_le a b : (comparator a b <= 0)%Z <-> code_le a b.
Proof.
  split.
  - revert b. induction a as [| x a IH]; intros [| y b]; simpl;
      try (intros; constructor; fail); [lia |].
    cmp_cases x y; try lia; intros Hc.
    + now apply code_le_lt.
    + apply code_le_eq; [lia | now apply IH].
  - induction 1 as [b | x y r1 r2 H | x y r1 r2 H _ IH]; simpl.
    + destruct b; lia.
    + cmp_cases x y; lia.
    + cmp_cases x y; try lia.
Qed.

(** ** Sorting *)

Lemma insert_perm x l : Permutation (x :: l) (insert x l).
Proof.
  induction l as [| y l IH]; simpl; [reflexivity |].
  destruct (comparator x y <=? 0)%Z; [reflexivity |].
  rewrite perm_swap. now constructor.
Qed.

Lemma qsort_perm l : Permutation l (qsort l).
Proof.
  induction l as [| x l IH]; simpl; [constructor |].
  rewrite <- insert_perm. now constructor.
Qed.

Lemma insert_sorted x l : Sorted le_num l -> Sorted le_num (insert x l).
Proof.
  induction 1 as [| y l Hs IH Hhd]; simpl.
  - repeat constructor.
  - destruct (Z.leb_spec (comparator x y) 0) as [Hle | Hgt].
    + constructor; [now constructor | now constructor].
    + constructor; [exact IH |].
      assert (Hyx : le_num y x).
      { unfold le_num. rewrite (comparator_antisym x y). lia. }
      destruct l as [| z l]; simpl.
      * now constructor.
      * destruct (comparator x z <=? 0)%Z; constructor; auto.
        now inversion Hhd.
Qed.

Lemma qsort_sorted l : Sorted le_num (qsort l).
Proof.
  induction l as [| x l IH]; simpl; [constructor | now apply insert_sorted].
Qed.

Lemma le_num_trans : Relations_1.Transitive le_num.
Proof. intros a b c. apply comparator_le_trans. Qed.

Lemma qsort_strongly_sorted l : StronglySorted le_num (qsort l).
Proof.
  apply Sorted_StronglySorted; [exact le_num_trans | apply qsort_sorted].
Qed.

Lemma lt_num_irrefl a : ~ lt_num a a.
Proof. unfold lt_num. rewrite comparator_refl. lia. Qed.

Lemma lt_num_asym a b : lt_num a b -> ~ lt_num b a.
Proof. unfold lt_num. rewrite (comparator_antisym a b). lia. Qed.

(** A strictly increasing list is determined by its elements. *)
Lemma strictly_sorted_unique l1 :
  forall l2,
    StronglySorted lt_num l1 -> StronglySorted lt_num l2 ->
    (forall x, In x l1 <-> In x l2) -> l1 = l2.
Proof.
  induction l1 as [| x1 l1 IH]; intros [| x2 l2] H1 H2 Hin.
  - reflexivity.
  - exfalso. apply (Hin x2). now left.
  - exfalso. apply (Hin x1). now left.
  - apply StronglySorted_inv in H1 as [H1 F1].
    apply StronglySorted_inv in H2 as [H2 F2].
    rewrite Forall_forall in F1, F2.
    assert (x1 = x2) as <-.
    { destruct (proj1 (Hin x1) (or_introl eq_refl)) as [E | I1]; [auto |].
      destruct (proj2 (Hin x2) (or_introl eq_refl)) as [E | I2]; [auto |].
      exfalso. exact (lt_num_asym (F1 _ I2) (F2 _ I1)). }
    f_equal. apply IH; auto. intros z. split; intros Hz.
    + destruct (proj1 (Hin z) (or_intror Hz)) as [<- | I]; [| exact I].
      exfalso. exact (lt_num_irrefl (F1 _ Hz)).
    + destruct (proj2 (Hin z) (or_intror Hz)) as [<- | I]; [| exact I].
      exfalso. exact (lt_num_irrefl (F2 _ Hz)).
Qed.

Lemma strictly_sorted_NoDup l : StronglySorted lt_num l -> NoDup l.
Proof.
  induction 1 as [| x l _ IH F]; constructor; [| exact IH].
  intros Hin. rewrite Forall_forall in F.
  exact (lt_num_irrefl (F _ Hin)).
Qed.

(** ** The traversal of [reverse] *)

Lemma childrenLoop_nil rev cur i pn : childrenLoop rev cur [] i pn = pn.
Proof. reflexivity. Qed.

Lemma childrenLoop_cons rev cur c l i pn :
  childrenLoop rev cur (c :: l) i pn =
  if i <? BASE
  then childrenLoop rev cur l (S i) (rev c (cur ++ [intToChar i]) pn)
  else pn.
Proof. reflexivity. Qed.

Lemma childrenLoop_acc rev cur :
  (forall c cur' pn, rev c cur' pn = pn ++ rev c cur' []) ->
  forall l i pn,
    childrenLoop rev cur l i pn = pn ++ childrenLoop rev cur l i [].
Proof.
  intros Hacc. induction l as [| c l IH]; intros i pn; simpl.
  - now rewrite app_nil_r.
  - destruct (i <? BASE); [| now rewrite app_nil_r].
    rewrite IH, (IH _ (rev c _ [])), (Hacc c _ pn).
    now rewrite app_assoc.
Qed.

Lemma reverse_acc pf n :
  forall cur pn, reverse pf n cur pn = pn ++ reverse pf n cur [].
Proof.
  induction pf as [| fwd cs IH] using PhoneForward_nested_ind;
    intros cur pn; cbn [reverse].
  - now rewrite app_nil_r.
  - assert (L : forall l, Forall
        (fun pf => forall cur pn,
             reverse pf n cur pn = pn ++ reverse pf n cur []) l ->
        forall i pn,
          childrenLoop (fun c cur pn' => reverse c n cur pn') cur l i pn =
          pn ++ childrenLoop (fun c cur pn' => reverse c n cur pn')
                  cur l i []).
    { induction 1 as [| c l Hc _ IHl]; intros i pn'; simpl.
      - now rewrite app_nil_r.
      - destruct (i <? BASE); [| now rewrite app_nil_r].
        rewrite IHl, (IHl _ (reverse c _ _ [])), (Hc _ pn').
        now rewrite app_assoc. }
    rewrite (L cs IH 0 (pn ++ _)), (L cs IH 0 ([] ++ _)).
    now rewrite app_assoc.
Qed.

Lemma flat_map_all_nil (A B : Type) (f : A -> list B) l :
  (forall x, f x = []) -> flat_map f l = [].
Proof.
  intros H. induction l as [| x l IH]; simpl; [reflexivity |].
  now rewrite H, IH.
Qed.

Lemma flat_map_seq_S (B : Type) (f : nat -> list B) len :
  flat_map f (seq 0 (S len)) = f 0 ++ flat_map (fun m => f (S m)) (seq 0 len).
Proof.
  simpl. f_equal. rewrite <- seq_shift.
  induction (seq 0 len) as [| i l IH]; [reflexivity |].
  simpl. now rewrite IH.
Qed.

Lemma childrenLoop_flat_map rev cur :
  (forall c cur' pn, rev c cur' pn = pn ++ rev c cur' []) ->
  (forall cur', rev NULL cur' [] = []) ->
  forall l i,
    childrenLoop rev cur l i [] =
    flat_map (fun m => rev (child l m) (cur ++ [intToChar (i + m)]) [])
      (seq 0 (BASE - i)).
Proof.
  intros Hacc Hnull. induction l as [| c l IH]; intros i.
  - rewrite childrenLoop_nil. symmetry. apply flat_map_all_nil.
    intros m. now rewrite child_nil.
  - rewrite childrenLoop_cons.
    destruct (Nat.ltb_spec i BASE) as [Hlt | Hge].
    + rewrite (childrenLoop_acc _ _ Hacc), IH.
      replace (BASE - i) with (S (BASE - S i)) by lia.
      rewrite flat_map_seq_S. rewrite Nat.add_0_r. f_equal.
      apply flat_map_ext. intros m.
      now replace (i + S m) with (S i + m) by lia.
    + now replace (BASE - i) with 0 by lia.
Qed.

(** [reverse] at a node, as the source writes it: the number of the node,
    then the children from slot [0] to slot [BASE - 1]. *)
Lemma reverse_Node fwd cs n cur :
  reverse (Node fwd cs) n cur [] =
  emit fwd n cur ++
  flat_map (fun i => reverse (child cs i) n (cur ++ [intToChar i]) [])
    (seq 0 BASE).
Proof.
  cbn [reverse app].
  rewrite (childrenLoop_acc (fun c cur pn' => reverse c n cur pn') cur
             (fun c => reverse_acc c n)).
  f_equal.
  rewrite (childrenLoop_flat_map (fun c cur pn' => reverse c n cur pn') cur
             (fun c => reverse_acc c n) (fun _ => eq_refl)).
  reflexivity.
Qed.

Lemma emit_In fwd n cur x :
  In x (emit fwd n cur) <->
  exists t s, fwd = Some t /\ n = t ++ s /\ x = cur ++ s.
Proof.
  unfold emit. destruct fwd as [t |].
  - destruct (isPrefixOf t n) eqn:Hp.
    + apply isPrefixOf_spec in Hp as [s ->].
      rewrite skipn_strlen_app. split.
      * intros [<- | []]. now exists t, s.
      * intros (t' & s' & [= <-] & E & ->).
        apply app_inv_head in E as <-. now left.
    + split; [intros [] |].
      intros (t' & s' & [= <-] & E & _).
      assert (isPrefixOf t n = true) by (apply isPrefixOf_spec; eauto).
      congruence.
  - split; [intros [] | intros (t & s & E & _); discriminate].
Qed.

(** The numbers [reverse] collects below a node. *)
Lemma reverse_In pf n :
  forall cur x,
    In x (reverse pf n cur []) <->
    exists path t s,
      Forall (fun k => k < BASE) path /\ target_at pf path = Some t /\
      n = t ++ s /\ x = cur ++ map intToChar path ++ s.
Proof.
  induction pf as [| fwd cs IH] using PhoneForward_nested_ind;
    intros cur x.
  - simpl. split; [intros [] |].
    intros (path & t & s & _ & H & _).
    rewrite target_at_NULL in H. discriminate.
  - rewrite reverse_Node, in_app_iff, emit_In, in_flat_map. split.
    + intros [(t & s & -> & -> & ->) | (i & Hi & Hx)].
      * exists [], t, s. repeat split; auto.
      * apply in_seq in Hi.
        apply (@Forall_child _ cs i) in IH.
        -- apply IH in Hx as (path & t & s & HF & Ht & -> & ->).
           exists (i :: path), t, s. repeat split; auto.
           ++ constructor; [lia | exact HF].
           ++ simpl. now rewrite <- app_assoc.
        -- intros cur' x'. simpl. split; [intros [] |].
           intros (path & t & s & _ & H & _).
           rewrite target_at_NULL in H. discriminate.
    + intros (path & t & s & HF & Ht & -> & ->).
      destruct path as [| k path].
      * left. exists t, s. repeat split; auto.
      * right. exists k. inversion HF as [| ? ? Hk HF']; subst.
        split; [apply in_seq; lia |].
        apply (@Forall_child _ cs k) in IH.
        -- apply IH. exists path, t, s. repeat split; auto.
           simpl. now rewrite <- app_assoc.
        -- intros cur' x'. simpl. split; [intros [] |].
           intros (path' & t' & s' & _ & H & _).
           rewrite target_at_NULL in H. discriminate.
Qed.

Lemma reverse_candidate pf n x :
  In x (reverse pf n [] []) <-> candidate pf n x.
Proof.
  rewrite reverse_In. unfold candidate. split.
  - intros (path & t & s & HF & Ht & -> & ->).
    exists (map intToChar path), t, s.
    rewrite (codes_intToChar HF).
    repeat split; auto. apply symbols_intToChar.
  - intros (P & t & s & HP & Ht & -> & ->).
    exists (codes P), t, s. rewrite (intToChar_codes HP).
    repeat split; auto. apply codes_lt.
Qed.

(** ** Removal of the repeated cells *)

Lemma distinct_single x : distinct [x] = [x].
Proof. reflexivity. Qed.

Lemma distinct_cons2 x y l :
  distinct (x :: y :: l) =
  if streq x y then distinct (y :: l) else x :: distinct (y :: l).
Proof.
  unfold distinct. cbn [copyDistinct].
  change (last (x :: y :: l) []) with (last (y :: l) []).
  now destruct (streq x y).
Qed.

Lemma distinct_In l z : l <> [] -> In z (distinct l) <-> In z l.
Proof.
  induction l as [| x l IH]; [congruence |]. intros _.
  destruct l as [| y l]; [reflexivity |].
  rewrite distinct_cons2.
  assert (IH' := IH ltac:(discriminate)).
  destruct (streq x y) eqn:E.
  - apply streq_true in E. subst y. rewrite IH'. simpl. tauto.
  - simpl in *. rewrite IH'. tauto.
Qed.

Lemma distinct_strict l :
  l <> [] -> Forall symbols l -> StronglySorted le_num l ->
  StronglySorted lt_num (distinct l).
Proof.
  induction l as [| x l IH]; [congruence |]. intros _ Hsym Hs.
  destruct l as [| y l].
  - rewrite distinct_single. repeat constructor.
  - rewrite distinct_cons2.
    apply StronglySorted_inv in Hs as [Hs Hx].
    inversion Hsym as [| ? ? Sx Sl]; subst.
    assert (IH' := IH ltac:(discriminate) Sl Hs).
    destruct (streq x y) eqn:E; [exact IH' |].
    constructor; [exact IH' |].
    apply streq_false in E.
    inversion Hx as [| ? ? Hxy _]; subst.
    inversion Sl as [| ? ? Sy _]; subst.
    assert (Hlt : lt_num x y).
    { unfold lt_num, le_num in *.
      assert (comparator x y <> 0%Z)
        by (intros H0; apply E; now apply comparator_eq).
      lia. }
    apply Forall_forall. intros z Hz.
    apply (proj1 (@distinct_In (y :: l) z ltac:(discriminate))) in Hz.
    apply (@comparator_lt_le_trans x y z Hlt).
    destruct Hz as [<- | Hz].
    + rewrite comparator_refl. lia.
    + apply StronglySorted_inv in Hs as [_ Hy].
      rewrite Forall_forall in Hy. now apply Hy.
Qed.

Lemma strictly_sorted_adjacent l :
  StronglySorted lt_num l ->
  forall i, S i < length l -> nth i l [] <> nth (S i) l [].
Proof.
  induction 1 as [| x l _ IH F]; intros i Hi; simpl in Hi; [lia |].
  destruct i as [| i].
  - destruct l as [| y l]; simpl in *; [lia |].
    inversion F as [| ? ? Hxy _]; subst.
    intros ->. exact (lt_num_irrefl Hxy).
  - apply IH. lia.
Qed.

Lemma strictly_sorted_le l :
  StronglySorted lt_num l -> Sorted code_le l.
Proof.
  intros H. apply StronglySorted_Sorted.
  induction H as [| x l _ IH F]; constructor; [exact IH |].
  eapply Forall_impl; [| exact F].
  intros z Hz. apply comparator_code_le. unfold lt_num in Hz. lia.
Qed.

(** ** The list of [phfwdReverse] *)

Lemma qsort_nonempty l : l <> [] -> qsort l <> [].
Proof.
  intros H E. apply H. apply Permutation_nil.
  rewrite <- E. symmetry. apply qsort_perm.
Qed.

Lemma snoc_nonempty (A : Type) (l : list A) x : l ++ [x] <> [].
Proof. now destruct l. Qed.

Lemma phfwdReverse_valid pf n :
  pf <> NULL -> valid n ->
  phfwdReverse pf (Some n) =
  Some {| numbers := map Some (reverseCells pf n);
          size := length (reverseCells pf n) |}.
Proof.
  intros Hpf Hn. unfold valid in Hn. unfold phfwdReverse.
  destruct pf as [| fwd cs]; [congruence |].
  rewrite Hn. cbn [negb]. unfold reverseCells, distinct.
  now rewrite length_app.
Qed.

Lemma reverseCells_In pf n x :
  In x (reverseCells pf n) <-> x = n \/ candidate pf n x.
Proof.
  unfold reverseCells.
  rewrite distinct_In by (apply qsort_nonempty, snoc_nonempty).
  rewrite <- reverse_candidate. split.
  - intros H. apply (Permutation_in _ (Permutation_sym (qsort_perm _))) in H.
    apply in_app_iff in H as [H | [<- | []]]; auto.
  - intros H. apply (Permutation_in _ (qsort_perm _)).
    apply in_app_iff. destruct H as [-> | H]; [right; now left | now left].
Qed.

Lemma candidate_symbols pf n x : symbols n -> candidate pf n x -> symbols x.
Proof.
  intros Hn (P & t & s & HP & _ & -> & ->).
  apply symbols_app in Hn as [_ Hs]. now apply symbols_app.
Qed.

Lemma reverseCells_strict pf n :
  symbols n -> StronglySorted lt_num (reverseCells pf n).
Proof.
  intros Hn. unfold reverseCells. apply distinct_strict.
  - apply qsort_nonempty, snoc_nonempty.
  - apply Forall_forall. intros x Hx.
    apply (Permutation_in _ (Permutation_sym (qsort_perm _))) in Hx.
    apply in_app_iff in Hx as [Hx | [<- | []]]; [| exact Hn].
    apply reverse_candidate in Hx. eapply candidate_symbols; eauto.
  - apply qsort_strongly_sorted.
Qed.

(** ** The invariant *)

Lemma wf_Node fwd cs :
  wf (Node fwd cs) = true <->
  length cs = BASE /\ isNumberOk_opt fwd = true /\
  Forall (fun c => wf c = true) cs.
Proof.
  cbn [wf]. rewrite !andb_true_iff, Nat.eqb_eq, forallb_forall, Forall_forall.
  tauto.
Qed.

Lemma wf_child fwd cs k : wf (Node fwd cs) = true -> wf (child cs k) = true.
Proof.
  intros H. apply wf_Node in H as (_ & _ & H).
  now apply Forall_child.
Qed.

Lemma wf_target pf path t :
  wf pf = true -> target_at pf path = Some t -> valid t.
Proof.
  revert pf. induction path as [| k path IH]; intros [| fwd cs] Hwf Ht;
    try (rewrite target_at_NULL in Ht; discriminate).
  - apply wf_Node in Hwf as (_ & Hfwd & _).
    unfold target_at in Ht. simpl in Ht. subst fwd. exact Hfwd.
  - rewrite target_at_cons in Ht.
    apply (IH (child cs k)); [eapply wf_child; eauto | exact Ht].
Qed.

(** ** Reverse lookup *)

(** C3.  On a trie of the interface and a valid number [n], the elements
    of the list of [phfwdReverse] are exactly [n] itself and, for every
    node whose target [t] is a non-empty prefix of [n], the root path [P]
    of the node followed by [n] without [t]. *)
Theorem phfwdReverse_elements (pf : PhoneForward) (n : cstring) :
  pf <> NULL -> wf pf = true -> valid n ->
  exists out,
    phfwdReverse pf (Some n) =
      Some {| numbers := map Some out; size := length out |} /\
    forall x,
      In x out <->
      x = n \/
      exists P t s,
        symbols P /\ target_at pf (codes P) = Some t /\ t <> [] /\
        n = t ++ s /\ x = P ++ s.
Proof.
  intros Hpf Hwf Hn. exists (reverseCells pf n).
  split; [now apply phfwdReverse_valid |].
  intros x. rewrite reverseCells_In. unfold candidate. split.
  - intros [-> | (P & t & s & HP & Ht & -> & ->)]; [now left | right].
    exists P, t, s. repeat split; auto.
    apply (@wf_target pf _ t Hwf) in Ht. apply valid_iff in Ht. tauto.
  - intros [-> | (P & t & s & HP & Ht & _ & -> & ->)]; [now left | right].
    exists P, t, s. repeat split; auto.
Qed.

Lemma phfwdReverse_elements_witness :
  exists out,
    phfwdReverse trie_13 (Some (str "513")) =
      Some {| numbers := map Some out; size := length out |} /\
    forall x,
      In x out <->
      x = str "513" \/
      exists P t s,
        symbols P /\ target_at trie_13 (codes P) = Some t /\ t <> [] /\
        str "513" = t ++ s /\ x = P ++ s.
Proof.
  apply (@phfwdReverse_elements trie_13 (str "513")).
  - vm_compute. discriminate.
  - reflexivity.
  - reflexivity.
Defined.

(** The scenario of the specification: with the rule ["13"] to ["5"],
    the reverse of ["513"] holds ["1313"] and ["513"]. *)
Example phfwdReverse_513 :
  phfwdReverse trie_13 (Some (str "513")) =
  Some {| numbers := [Some (str "1313"); Some (str "513")]; size := 2 |}.
Proof. reflexivity. Qed.

(** C4.  On a trie and a valid number, the list of [phfwdReverse] is
    non-decreasing in the order that compares position by position by
    symbol code, a proper prefix being smaller; no two neighbours are
    equal, and so no string occurs twice. *)
Theorem phfwdReverse_sorted (pf : PhoneForward) (n : cstring) :
  pf <> NULL -> valid n ->
  exists out,
    phfwdReverse pf (Some n) =
      Some {| numbers := map Some out; size := length out |} /\
    Sorted code_le out /\
    (forall i, S i < length out -> nth i out [] <> nth (S i) out []) /\
    NoDup out.
Proof.
  intros Hpf Hn. exists (reverseCells pf n).
  split; [now apply phfwdReverse_valid |].
  apply valid_iff in Hn as [_ Hn].
  pose proof (reverseCells_strict pf Hn) as Hs.
  repeat split.
  - now apply strictly_sorted_le.
  - now apply strictly_sorted_adjacent.
  - now apply strictly_sorted_NoDup.
Qed.

Lemma phfwdReverse_sorted_witness :
  exists out,
    phfwdReverse trie_13 (Some (str "513")) =
      Some {| numbers := map Some out; size := length out |} /\
    Sorted code_le out /\
    (forall i, S i < length out -> nth i out [] <> nth (S i) out []) /\
    NoDup out.
Proof.
  apply (@phfwdReverse_sorted trie_13 (str "513")).
  - vm_compute. discriminate.
  - reflexivity.
Defined.

(** ** Consistent reverse lookup *)

Lemma getReverseLoop_filter pf n cells :
  forall acc,
    getReverseLoop pf n cells acc = acc ++ filter (forwardsTo pf n) cells.
Proof.
  induction cells as [| y cells IH]; intros acc; simpl.
  - now rewrite app_nil_r.
  - destruct (forwardsTo pf n y); rewrite IH; [| reflexivity].
    now rewrite <- app_assoc.
Qed.

Lemma firstn_length_map (A B : Type) (f : A -> B) l :
  firstn (length l) (map f l) = map f l.
Proof. rewrite <- (length_map f l). apply firstn_all. Qed.

Lemma phfwdGet_cases pf num :
  pf <> NULL ->
  phfwdGet pf num = Some phnumInvalid \/
  exists r, phfwdGet pf num = Some {| numbers := [Some r]; size := 1 |}.
Proof.
  intros Hpf. unfold phfwdGet. destruct pf as [| fwd cs]; [congruence |].
  destruct (isNumberOk num); cbn [negb]; [right | now left].
  destruct (phoneForwardGet _ _ _ _ _). eauto.
Qed.

Lemma forwardsTo_resolvesTo pf n y :
  forwardsTo pf n y = resolvesTo pf n y.
Proof.
  unfold forwardsTo, resolvesTo, phnumGet.
  destruct (phfwdGet pf y) as [[nums [| sz]] |]; reflexivity.
Qed.

Lemma resolvesTo_true pf n y :
  pf <> NULL -> resolvesTo pf n y = true ->
  phfwdGet pf y = Some {| numbers := [Some n]; size := 1 |}.
Proof.
  intros Hpf. unfold resolvesTo.
  destruct (@phfwdGet_cases pf y Hpf) as [E | [r E]]; rewrite E; simpl.
  - discriminate.
  - intros H. apply streq_true in H. now subst r.
Qed.

Lemma phfwdGetReverse_valid pf n :
  pf <> NULL -> valid n ->
  phfwdGetReverse pf (Some n) =
  Some {| numbers := filter (forwardsTo pf n) (map Some (reverseCells pf n));
          size := length (filter (forwardsTo pf n)
                            (map Some (reverseCells pf n))) |}.
Proof.
  intros Hpf Hn. unfold phfwdGetReverse.
  rewrite (phfwdReverse_valid Hpf Hn).
  unfold valid in Hn. destruct pf as [| fwd cs]; [congruence |].
  rewrite Hn. cbn [negb numbers size].
  rewrite firstn_length_map, getReverseLoop_filter. reflexivity.
Qed.

(** C2.  On a trie and a valid number [n], the list of [phfwdGetReverse]
    is the list of [phfwdReverse] restricted, in the same order, to the
    candidates [y] for which the single element of [phfwdGet] on [y] is
    [n]; so [phfwdGet] maps every element of the list to [n]. *)
Theorem phfwdGetReverse_filter (pf : PhoneForward) (n : cstring) :
  pf <> NULL -> valid n ->
  exists rev res,
    phfwdReverse pf (Some n) = Some rev /\
    phfwdGetReverse pf (Some n) = Some res /\
    numbers res = filter (resolvesTo pf n) (numbers rev) /\
    size res = length (numbers res) /\
    forall y, In y (numbers res) ->
      phfwdGet pf y = Some {| numbers := [Some n]; size := 1 |}.
Proof.
  intros Hpf Hn.
  rewrite (phfwdReverse_valid Hpf Hn), (phfwdGetReverse_valid Hpf Hn).
  do 2 eexists. split; [reflexivity |]. split; [reflexivity |].
  cbn [numbers size]. repeat split.
  - apply filter_ext. intros y. apply forwardsTo_resolvesTo.
  - intros y Hy. apply filter_In in Hy as [_ Hy].
    rewrite forwardsTo_resolvesTo in Hy. now apply resolvesTo_true.
Qed.

Lemma phfwdGetReverse_filter_witness :
  exists rev res,
    phfwdReverse trie_13 (Some (str "513")) = Some rev /\
    phfwdGetReverse trie_13 (Some (str "513")) = Some res /\
    numbers res = filter (resolvesTo trie_13 (str "513")) (numbers rev) /\
    size res = length (numbers res) /\
    forall y, In y (numbers res) ->
      phfwdGet trie_13 y =
      Some {| numbers := [Some (str "513")]; size := 1 |}.
Proof.
  apply (@phfwdGetReverse_filter trie_13 (str "513")).
  - vm_compute. discriminate.
  - reflexivity.
Defined.

(** With the rule ["13"] to ["5"], both ["1313"] and ["513"] resolve to
    ["513"], and both are in the list of [phfwdGetReverse]. *)
Example phfwdGetReverse_513 :
  phfwdGetReverse trie_13 (Some (str "513")) =
    Some {| numbers := [Some (str "1313"); Some (str "513")]; size := 2 |} /\
  phnumGet (phfwdGet trie_13 (Some (str "1313"))) 0 = Some (str "513") /\
  phnumGet (phfwdGet trie_13 (Some (str "513"))) 0 = Some (str "513").
Proof. repeat split. Qed.

(** ** Numbers that are not valid *)

(** C9.  On a trie and a number that is not valid (absent, empty or with
    a character outside the alphabet), [phfwdGet], [phfwdReverse] and
    [phfwdGetReverse] each return a list of size one whose cell [0] is
    the absent marker. *)
Theorem invalid_number_lists (pf : PhoneForward) (num : option cstring) :
  pf <> NULL -> isNumberOk num = false ->
  degenerate (phfwdGet pf num) /\
  degenerate (phfwdReverse pf num) /\
  degenerate (phfwdGetReverse pf num).
Proof.
  intros Hpf Hnum. destruct pf as [| fwd cs]; [congruence |].
  unfold phfwdGet, phfwdReverse, phfwdGetReverse. rewrite Hnum.
  cbn [negb]. repeat split; exists phnumInvalid; repeat split.
Qed.

Lemma invalid_number_lists_witness :
  degenerate (phfwdGet trie_13 (Some (str "5a"))) /\
  degenerate (phfwdReverse trie_13 (Some (str "5a"))) /\
  degenerate (phfwdGetReverse trie_13 (Some (str "5a"))).
Proof.
  apply (@invalid_number_lists trie_13 (Some (str "5a"))).
  - vm_compute. discriminate.
  - reflexivity.
Defined.

(** The same for an absent and for an empty number. *)
Example invalid_number_absent_empty :
  phnumGet (phfwdGet trie_13 None) 0 = None /\
  phnumGet (phfwdReverse trie_13 (Some [])) 0 = None /\
  phnumGet (phfwdGetReverse trie_13 (Some [])) 0 = None.
Proof. repeat split. Qed.

(** ** Sizes of the lists *)

(** C10.  After [phfwdAdd] of ["1"] to ["2"] on a new trie, the list of
    [phfwdGetReverse] for ["1"] has size zero, [phfwdGet] resolving ["1"]
    to ["2"]; the lists of [phfwdGet] and [phfwdReverse] on a trie and a
    valid number have at least one element. *)
Theorem phfwdGetReverse_may_be_empty :
  (trie_1 <> NULL /\ valid (str "1") /\
   phfwdGetReverse trie_1 (Some (str "1")) =
     Some {| numbers := []; size := 0 |} /\
   phfwdGet trie_1 (Some (str "1")) =
     Some {| numbers := [Some (str "2")]; size := 1 |}) /\
  (forall pf n, pf <> NULL -> valid n ->
     (exists out, holds (phfwdGet pf (Some n)) out /\ 1 <= length out) /\
     (exists out, holds (phfwdReverse pf (Some n)) out /\ 1 <= length out)).
Proof.
  split.
  - split; [vm_compute; discriminate | repeat split].
  - intros pf n Hpf Hn. unfold holds. split.
    + rewrite (phfwdGet_valid Hpf Hn). eexists [_]. split; [reflexivity |].
      simpl. lia.
    + rewrite (phfwdReverse_valid Hpf Hn). eexists. split; [reflexivity |].
      unfold reverseCells, distinct. rewrite length_app. simpl. lia.
Qed.

(** ** Additions *)

Lemma phfwdNew_cases al :
  (exists al', phfwdNew al = (NULL, al')) \/
  (exists al', phfwdNew al = (Node None (repeat NULL BASE), al')).
Proof.
  unfold phfwdNew, malloc. destruct al as [| [|] al]; eauto.
Qed.

Lemma child_Node_lt cs k fwd cs' :
  child cs k = Node fwd cs' -> k < length cs.
Proof.
  intros H. destruct (Nat.lt_ge_cases k (length cs)) as [L | G]; [exact L |].
  rewrite (child_overflow _ G) in H. discriminate.
Qed.

Lemma store_NULL path t :
  store NULL path t = store (Node None (repeat NULL BASE)) path t.
Proof. now destruct path. Qed.

Lemma store_Node_cons fwd cs k path t :
  store (Node fwd cs) (k :: path) t =
  Node fwd (setChild cs k (store (child cs k) path t)).
Proof. reflexivity. Qed.

Lemma target_at_fresh path :
  target_at (Node None (repeat NULL BASE)) path = None.
Proof.
  destruct path as [| k path]; [reflexivity |].
  now autorewrite with trie.
Qed.

(** The three ways [addPhoneForward] goes on at a node. *)
Lemma addPhoneForward_cons al fwd cs c rest t :
  let k := charToInt c in
  (child cs k = NULL /\
   exists al', phfwdNew al = (NULL, al') /\
     addPhoneForward al (Node fwd cs) (c :: rest) t =
       (false, Node fwd (setChild cs k NULL), al')) \/
  (exists sub0 al0 r sub al',
     sub0 <> NULL /\
     (child cs k = NULL /\
      phfwdNew al = (sub0, al0) /\ sub0 = Node None (repeat NULL BASE)
      \/ child cs k = sub0 /\ al0 = al) /\
     addPhoneForward al0 sub0 rest t = (r, sub, al') /\
     addPhoneForward al (Node fwd cs) (c :: rest) t =
       (r, Node fwd (setChild cs k sub), al')).
Proof.
  intros k. cbn [addPhoneForward]. fold k.
  destruct (child cs k) as [| f0 cs0] eqn:Hc.
  - destruct (phfwdNew_cases al) as [[al' E] | [al' E]]; rewrite E.
    + left. eauto.
    + right.
      destruct (addPhoneForward al' (Node None (repeat NULL BASE)) rest t)
        as [[r sub] al''] eqn:Ea.
      exists (Node None (repeat NULL BASE)), al', r, sub, al''.
      split; [discriminate |]. split; [left; auto |].
      split; [exact Ea | reflexivity].
  - right.
    destruct (addPhoneForward al (Node f0 cs0) rest t)
      as [[r sub] al''] eqn:Ea.
    exists (Node f0 cs0), al, r, sub, al''.
    split; [discriminate |]. split; [right; auto |].
    split; [exact Ea | reflexivity].
Qed.

(** A successful [addPhoneForward] stores the target at the path. *)
Lemma addPhoneForward_true rest :
  forall al pf t pf' al',
    addPhoneForward al pf rest t = (true, pf', al') ->
    pf' = store pf (codes rest) t.
Proof.
  induction rest as [| c rest IH]; intros al [| fwd cs] t pf' al' H;
    try (simpl in H; discriminate).
  - simpl in H. now injection H as <- _.
  - destruct (addPhoneForward_cons al fwd cs c rest t)
      as [(_ & al0 & _ & E) |
          (sub0 & al0 & r & sub & al1 & _ & Hsub & Ea & E)];
      rewrite E in H; [discriminate |].
    injection H as -> <- _. apply IH in Ea. subst sub.
    change (codes (c :: rest)) with (charToInt c :: codes rest).
    rewrite store_Node_cons.
    destruct Hsub as [(Hc & _ & ->) | (Hc & _)]; rewrite Hc.
    + now rewrite store_NULL.
    + reflexivity.
Qed.

(** A failed [addPhoneForward] registers nothing, changes no rule, and
    leaves no node at the path it was to create. *)
Lemma addPhoneForward_false rest :
  forall al pf t pf' al',
    addPhoneForward al pf rest t = (false, pf', al') ->
    (forall q, target_at pf' q = target_at pf q) /\
    subtrie pf' (codes rest) = NULL /\
    (pf <> NULL -> pf' <> NULL).
Proof.
  induction rest as [| c rest IH]; intros al [| fwd cs] t pf' al' H;
    try (simpl in H; injection H as <- _;
         repeat split; auto; apply subtrie_NULL);
    try (simpl in H; discriminate).
  change (codes (c :: rest)) with (charToInt c :: codes rest).
  destruct (addPhoneForward_cons al fwd cs c rest t)
    as [(Hc & al0 & _ & E) |
        (sub0 & al0 & r & sub & al1 & Hnn & Hsub & Ea & E)];
    rewrite E in H; [injection H as <- _ | injection H as -> <- _].
  - repeat split; [| | discriminate].
    + intros [| k q]; [reflexivity |]. rewrite !target_at_cons.
      destruct (Nat.eq_dec (charToInt c) k) as [<- | Hk].
      * now rewrite child_setChild_NULL, Hc.
      * now rewrite child_setChild_other.
    + cbn [subtrie]. now autorewrite with trie.
  - apply IH in Ea as (Hq & Hs & _).
    repeat split; [| | discriminate].
    + intros [| k q]; [reflexivity |]. rewrite !target_at_cons.
      destruct (Nat.eq_dec (charToInt c) k) as [<- | Hk];
        [| now rewrite child_setChild_other].
      rewrite child_setChild.
      destruct (Nat.ltb_spec (charToInt c) (length cs)) as [L | G].
      * rewrite Hq.
        destruct Hsub as [(Hc & _ & ->) | (Hc & _)]; rewrite Hc;
          [now rewrite target_at_fresh, target_at_NULL | reflexivity].
      * now rewrite (child_overflow _ G).
    + cbn [subtrie]. rewrite child_setChild.
      destruct (charToInt c <? length cs); [exact Hs | apply subtrie_NULL].
Qed.

(** The outcome of [phfwdAdd], by cases. *)
Lemma phfwdAdd_cases al pf num1 num2 r pf' al' :
  phfwdAdd al pf num1 num2 = (r, pf', al') ->
  (r = false /\ pf' = pf /\ al' = al) \/
  (exists s1 s2,
     num1 = Some s1 /\ num2 = Some s2 /\ valid s1 /\ valid s2 /\
     s1 <> s2 /\ pf <> NULL /\
     ((r = true /\ addPhoneForward al pf s1 s2 = (true, pf', al')) \/
      (exists pf1,
         r = false /\ addPhoneForward al pf s1 s2 = (false, pf1, al') /\
         pf' = phfwdRemove pf1 num1))).
Proof.
  unfold phfwdAdd. intros H.
  destruct pf as [| fwd cs]; [injection H as <- <- <-; auto |].
  destruct num1 as [s1 |]; [| injection H as <- <- <-; auto].
  destruct num2 as [s2 |]; [| injection H as <- <- <-; auto].
  destruct (isNumberOk (Some s1)) eqn:H1;
    [| injection H as <- <- <-; auto].
  destruct (isNumberOk (Some s2)) eqn:H2;
    [| injection H as <- <- <-; auto].
  destruct (streq s1 s2) eqn:H3; [injection H as <- <- <-; auto |].
  cbn [negb orb] in H. right. exists s1, s2.
  apply streq_false in H3.
  destruct (addPhoneForward al (Node fwd cs) s1 s2) as [[res pf1] al1].
  assert (Hnn : Node fwd cs <> NULL) by discriminate.
  destruct res; cbn [negb] in H; injection H as <- <- <-.
  - do 6 (split; [assumption || reflexivity |]). left. auto.
  - do 6 (split; [assumption || reflexivity |]). right. exists pf1. auto.
Qed.

(** The rollback of [phfwdAdd] after a failed [addPhoneForward] finds
    nothing to remove. *)
Lemma phfwdAdd_rollback al pf s1 s2 pf1 al' :
  valid s1 -> addPhoneForward al pf s1 s2 = (false, pf1, al') ->
  phfwdRemove pf1 (Some s1) = pf1.
Proof.
  intros Hv H. apply addPhoneForward_false in H as (_ & Hs & _).
  rewrite (phfwdRemove_valid pf1 Hv).
  apply phoneForwardRemove_absent; [| exact Hs].
  apply valid_iff in Hv. tauto.
Qed.

(** ** Queries only see the rules *)

Lemma phoneForwardGet_ext pf pf' rest pn j i :
  same_rules pf pf' ->
  phoneForwardGet pf' rest pn j i = phoneForwardGet pf rest pn j i.
Proof.
  intros Hsame.
  destruct (phoneForwardGet_spec rest pf pn j i)
    as [[Hno E] | (k & t & (Hk & Ht & Hdeep) & E)];
  destruct (phoneForwardGet_spec rest pf' pn j i)
    as [[Hno' E'] | (k' & t' & (Hk' & Ht' & Hdeep') & E')];
  rewrite E, E'.
  - reflexivity.
  - rewrite Hsame, (Hno k' Hk') in Ht'. discriminate.
  - rewrite <- Hsame, (Hno' k Hk) in Ht. discriminate.
  - destruct (Nat.lt_trichotomy k k') as [L | [<- | L]].
    + rewrite Hsame, (Hdeep k' L Hk') in Ht'. discriminate.
    + rewrite Hsame in Ht'. congruence.
    + rewrite <- Hsame, (Hdeep' k L Hk) in Ht. discriminate.
Qed.

Lemma phfwdGet_ext pf pf' q :
  (pf = NULL <-> pf' = NULL) -> same_rules pf pf' ->
  phfwdGet pf' q = phfwdGet pf q.
Proof.
  intros Hnull Hsame. unfold phfwdGet.
  destruct pf as [| fwd cs], pf' as [| fwd' cs']; try reflexivity;
    try (exfalso; destruct Hnull as [H1 H2];
         (now discriminate H1) || (now discriminate H2)).
  destruct (isNumberOk q); cbn [negb]; [| reflexivity].
  now rewrite (phoneForwardGet_ext _ None 0 0 Hsame).
Qed.

Lemma candidate_ext pf pf' n x :
  same_rules pf pf' -> candidate pf' n x <-> candidate pf n x.
Proof.
  intros Hsame. unfold candidate.
  split; intros (P & t & s & HP & Ht & Hn & Hx); exists P, t, s;
    repeat split; auto; [rewrite <- Hsame | rewrite Hsame]; exact Ht.
Qed.

Lemma reverseCells_ext pf pf' n :
  symbols n -> same_rules pf pf' -> reverseCells pf' n = reverseCells pf n.
Proof.
  intros Hn Hsame. apply strictly_sorted_unique.
  - now apply reverseCells_strict.
  - now apply reverseCells_strict.
  - intros x. rewrite !reverseCells_In.
    now rewrite (candidate_ext n x Hsame).
Qed.

Lemma phfwdReverse_ext pf pf' q :
  (pf = NULL <-> pf' = NULL) -> same_rules pf pf' ->
  phfwdReverse pf' q = phfwdReverse pf q.
Proof.
  intros Hnull Hsame.
  destruct pf as [| fwd cs], pf' as [| fwd' cs']; try reflexivity;
    try (exfalso; destruct Hnull as [H1 H2];
         (now discriminate H1) || (now discriminate H2)).
  destruct (isNumberOk q) eqn:Hq.
  - destruct q as [n |]; [| discriminate].
    rewrite !phfwdReverse_valid by (discriminate || exact Hq).
    apply valid_iff in Hq as [_ Hq].
    now rewrite (reverseCells_ext Hq Hsame).
  - unfold phfwdReverse. now rewrite Hq.
Qed.

Lemma phfwdGetReverse_ext pf pf' q :
  (pf = NULL <-> pf' = NULL) -> same_rules pf pf' ->
  phfwdGetReverse pf' q = phfwdGetReverse pf q.
Proof.
  intros Hnull Hsame.
  destruct pf as [| fwd cs], pf' as [| fwd' cs']; try reflexivity;
    try (exfalso; destruct Hnull as [H1 H2];
         (now discriminate H1) || (now discriminate H2)).
  destruct (isNumberOk q) eqn:Hq.
  - destruct q as [n |]; [| discriminate].
    rewrite !phfwdGetReverse_valid by (discriminate || exact Hq).
    apply valid_iff in Hq as [_ Hq].
    rewrite (reverseCells_ext Hq Hsame).
    assert (E : forall y, forwardsTo (Node fwd' cs') n y =
                          forwardsTo (Node fwd cs) n y).
    { intros y. unfold forwardsTo.
      now rewrite (phfwdGet_ext y Hnull Hsame). }
    now rewrite (filter_ext _ _ E).
  - unfold phfwdGetReverse. now rewrite Hq.
Qed.

(** ** Failed additions *)

Lemma phfwdAdd_false_same_rules al pf num1 num2 pf' al' :
  phfwdAdd al pf num1 num2 = (false, pf', al') ->
  (pf = NULL <-> pf' = NULL) /\ same_rules pf pf'.
Proof.
  intros H.
  destruct (phfwdAdd_cases _ _ _ _ H)
    as [(_ & -> & _) |
        (s1 & s2 & -> & -> & V1 & V2 & Hne & Hpf & Hadd)].
  - split; [tauto | intros path; reflexivity].
  - destruct Hadd as [[? _] | (pf1 & _ & Hadd & ->)]; [discriminate |].
    rewrite (phfwdAdd_rollback _ _ _ V1 Hadd).
    apply addPhoneForward_false in Hadd as (Hq & _ & Hnn).
    split; [| exact Hq]. split; [congruence | intros E].
    exfalso. now apply Hnn.
Qed.

(** X28.  When [phfwdAdd] returns [false], for whatever reason, a failed
    allocation of a node on the way included, the trie holds the rules it
    held before the call, and [phfwdGet], [phfwdReverse] and
    [phfwdGetReverse] answer every query as before the call.  The trie
    itself may have changed: nodes without a rule may have been added. *)
Theorem phfwdAdd_false_unchanged (al : allocator) (pf : PhoneForward)
    (num1 num2 : option cstring) (pf' : PhoneForward) (al' : allocator) :
  phfwdAdd al pf num1 num2 = (false, pf', al') ->
  same_rules pf pf' /\
  forall q,
    phfwdGet pf' q = phfwdGet pf q /\
    phfwdReverse pf' q = phfwdReverse pf q /\
    phfwdGetReverse pf' q = phfwdGetReverse pf q.
Proof.
  intros H. apply phfwdAdd_false_same_rules in H as [Hnull Hsame].
  split; [exact Hsame |]. intros q. repeat split.
  - now apply phfwdGet_ext.
  - now apply phfwdReverse_ext.
  - now apply phfwdGetReverse_ext.
Qed.

Lemma phfwdAdd_false_unchanged_witness :
  same_rules trie_123_1234 trie_half_12999 /\
  forall q,
    phfwdGet trie_half_12999 q = phfwdGet trie_123_1234 q /\
    phfwdReverse trie_half_12999 q = phfwdReverse trie_123_1234 q /\
    phfwdGetReverse trie_half_12999 q = phfwdGetReverse trie_123_1234 q.
Proof.
  apply (@phfwdAdd_false_unchanged [true; false] trie_123_1234
           (Some (str "12999")) (Some (str "7")) trie_half_12999 []).
  reflexivity.
Defined.

(** The nodes made before the allocation that fails stay in the trie,
    without a rule: the [phfwdRemove] of the rollback finds no node at the
    path of the prefix. *)
Example phfwdAdd_failure_keeps_path :
  phfwdAdd [true; false] trie_empty (Some (str "12")) (Some (str "3")) =
    (false, trie_half_12, []) /\
  subtrie trie_empty (codes (str "1")) = NULL /\
  subtrie trie_half_12 (codes (str "1")) = Node None (repeat NULL BASE).
Proof. repeat split. Qed.

(** C6.  [phfwdAdd] of the prefix ["12"] and the target ["3"] on a new
    trie, when the node of ["1"] is allocated and the allocation of the
    node of ["12"] fails: the call returns [false], and the trie it
    leaves is not the trie it was given, the node made for ["1"] is
    still there.  [phfwdAdd] does call [phfwdRemove] on the prefix after
    the failure, but [phfwdRemove] looks for the node of ["12"], which
    was never made, and removes nothing: the trie is not left exactly
    as it was. *)
Theorem phfwdAdd_failure_not_reverted :
  trie_empty = Node None (repeat NULL BASE) /\
  phfwdAdd [true; false] trie_empty (Some (str "12")) (Some (str "3")) =
    (false,
     Node None
       (NULL :: Node None (repeat NULL BASE) :: repeat NULL (BASE - 2)),
     []) /\
  addPhoneForward [true; false] trie_empty (str "12") (str "3") =
    (false, trie_half_12, []) /\
  phfwdRemove trie_half_12 (Some (str "12")) = trie_half_12 /\
  trie_half_12 <> trie_empty.
Proof.
  repeat split; try reflexivity.
  intros H. vm_compute in H. discriminate H.
Qed.

(** ** Stored rules *)

Lemma setChild_overflow cs k x : length cs <= k -> setChild cs k x = cs.
Proof.
  revert k. induction cs as [| c cs IH]; intros [| k] H; simpl in *;
    try reflexivity; try lia.
  rewrite IH; [reflexivity | lia].
Qed.

Lemma store_not_NULL pf path t : store pf path t <> NULL.
Proof. destruct path; discriminate. Qed.

Lemma store_store path :
  forall pf x y, store (store pf path x) path y = store pf path y.
Proof.
  induction path as [| k path IH]; intros pf x y.
  - destruct pf; reflexivity.
  - assert (L : forall fwd cs,
              store (Node fwd (setChild cs k (store (child cs k) path x)))
                (k :: path) y =
              Node fwd (setChild cs k (store (child cs k) path y))).
    { intros fwd cs. rewrite store_Node_cons, setChild_setChild, child_setChild.
      destruct (Nat.ltb_spec k (length cs)) as [L | G].
      - now rewrite IH.
      - now rewrite !(setChild_overflow _ _ G). }
    destruct pf as [| fwd cs]; apply L.
Qed.

(** A rule stored after a failed attempt is stored as if the attempt had
    not been made. *)
Lemma addPhoneForward_false_store rest :
  forall al pf x pf1 al' y,
    pf <> NULL ->
    addPhoneForward al pf rest x = (false, pf1, al') ->
    store pf1 (codes rest) y = store pf (codes rest) y.
Proof.
  induction rest as [| c rest IH]; intros al [| fwd cs] x pf1 al' y Hpf H;
    try congruence; try (simpl in H; discriminate).
  change (codes (c :: rest)) with (charToInt c :: codes rest).
  destruct (addPhoneForward_cons al fwd cs c rest x)
    as [(Hc & al0 & _ & E) |
        (sub0 & al0 & r & sub & al1 & Hnn & Hsub & Ea & E)];
    rewrite E in H; [injection H as <- _ | injection H as -> <- _].
  - rewrite !store_Node_cons. autorewrite with trie. now rewrite Hc.
  - rewrite !store_Node_cons, setChild_setChild, child_setChild.
    destruct (Nat.ltb_spec (charToInt c) (length cs)) as [L | G].
    + rewrite (IH _ _ _ _ _ y Hnn Ea).
      destruct Hsub as [(Hc & _ & ->) | (Hc & _)]; rewrite Hc;
        [now rewrite store_NULL | reflexivity].
    + now rewrite !(setChild_overflow _ _ G).
Qed.

Lemma target_at_store_other path :
  forall pf q t, q <> path -> target_at (store pf path t) q = target_at pf q.
Proof.
  induction path as [| k path IH]; intros pf q t Hq.
  - destruct q as [| k' q]; [congruence |].
    destruct pf as [| fwd cs].
    + change (store NULL [] t) with (Node (Some t) (repeat NULL BASE)).
      now autorewrite with trie.
    + reflexivity.
  - assert (L : forall fwd cs,
              target_at
                (Node fwd (setChild cs k (store (child cs k) path t))) q =
              target_at (Node fwd cs) q).
    { intros fwd cs. destruct q as [| k' q]; [reflexivity |].
      rewrite !target_at_cons.
      destruct (Nat.eq_dec k k') as [<- | Hk];
        [| now rewrite child_setChild_other].
      rewrite child_setChild.
      destruct (Nat.ltb_spec k (length cs)) as [L | G].
      - apply IH. congruence.
      - now rewrite (child_overflow _ G). }
    destruct pf as [| fwd cs].
    + rewrite store_NULL. change (store _ (k :: path) t) with
        (Node None (setChild (repeat NULL BASE) k
                      (store (child (repeat NULL BASE) k) path t))).
      now rewrite L, target_at_fresh, target_at_NULL.
    + apply L.
Qed.

Lemma wf_fresh : wf (Node None (repeat NULL BASE)) = true.
Proof. reflexivity. Qed.

Lemma wf_setChild fwd cs k x :
  wf (Node fwd cs) = true -> wf x = true ->
  wf (Node fwd (setChild cs k x)) = true.
Proof.
  intros H Hx. apply wf_Node in H as (Hlen & Hfwd & Hcs).
  apply wf_Node. rewrite length_setChild. repeat split; auto.
  clear Hlen. revert k.
  induction Hcs as [| c cs Hc Hcs IH]; intros [| k]; simpl;
    constructor; auto.
Qed.

Lemma wf_store path :
  forall pf t,
    wf pf = true -> valid t -> wf (store pf path t) = true.
Proof.
  induction path as [| k path IH]; intros pf t Hwf Ht.
  - assert (L : forall fwd cs, wf (Node fwd cs) = true ->
                               wf (Node (Some t) cs) = true).
    { intros fwd cs Hw. apply wf_Node in Hw as (Hlen & _ & Hcs).
      apply wf_Node. auto. }
    destruct pf as [| fwd cs]; [exact (L _ _ wf_fresh) | now apply (L fwd)].
  - destruct pf as [| fwd cs].
    + rewrite store_NULL, store_Node_cons.
      apply wf_setChild; [apply wf_fresh |].
      apply IH; [| exact Ht]. now rewrite child_repeat_NULL.
    + rewrite store_Node_cons. apply wf_setChild; [exact Hwf |].
      apply IH; [| exact Ht]. eapply wf_child; eauto.
Qed.

Lemma target_at_store_same path :
  forall pf t,
    wf pf = true -> Forall (fun k => k < BASE) path ->
    target_at (store pf path t) path = Some t.
Proof.
  induction path as [| k path IH]; intros pf t Hwf HF.
  - destruct pf; reflexivity.
  - inversion HF as [| ? ? Hk HF']; subst.
    assert (L : forall fwd cs,
              wf (Node fwd cs) = true ->
              target_at (store (Node fwd cs) (k :: path) t) (k :: path) =
              Some t).
    { intros fwd cs Hw. rewrite store_Node_cons, target_at_cons.
      rewrite child_setChild_same.
      - apply IH; [eapply wf_child; eauto | exact HF'].
      - apply wf_Node in Hw as (-> & _). exact Hk. }
    destruct pf as [| fwd cs]; [| now apply L].
    rewrite store_NULL. apply L, wf_fresh.
Qed.

Lemma wf_phoneForwardRemove rest :
  forall pf, wf pf = true -> wf (phoneForwardRemove pf rest) = true.
Proof.
  induction rest as [| c rest IH]; intros [| fwd cs] Hwf; try reflexivity;
    try exact Hwf.
  destruct rest as [| c' rest].
  - simpl. now apply wf_setChild.
  - rewrite phoneForwardRemove_cons2. apply wf_setChild; [exact Hwf |].
    apply IH. eapply wf_child; eauto.
Qed.

Lemma wf_phfwdRemove pf num : wf pf = true -> wf (phfwdRemove pf num) = true.
Proof.
  intros Hwf. destruct (isNumberOk num) eqn:Hn.
  - destruct num as [n |]; [| discriminate].
    rewrite (phfwdRemove_valid pf Hn). now apply wf_phoneForwardRemove.
  - now rewrite (phfwdRemove_invalid pf _ Hn).
Qed.

Lemma wf_addPhoneForward rest :
  forall al pf t r pf' al',
    wf pf = true -> valid t ->
    addPhoneForward al pf rest t = (r, pf', al') -> wf pf' = true.
Proof.
  induction rest as [| c rest IH]; intros al [| fwd cs] t r pf' al' Hwf Ht H;
    try (simpl in H; injection H as _ <- _; reflexivity).
  - simpl in H. injection H as _ <- _.
    apply wf_Node in Hwf as (Hlen & _ & Hcs). apply wf_Node. auto.
  - destruct (addPhoneForward_cons al fwd cs c rest t)
      as [(Hc & al0 & _ & E) |
          (sub0 & al0 & r0 & sub & al1 & Hnn & Hsub & Ea & E)];
      rewrite E in H; injection H as _ <- _.
    + now apply wf_setChild.
    + apply wf_setChild; [exact Hwf |].
      apply (IH _ _ _ _ _ _) with (3 := Ea); [| exact Ht].
      destruct Hsub as [(_ & _ & ->) | (<- & _)];
        [apply wf_fresh | eapply wf_child; eauto].
Qed.

Lemma wf_phfwdAdd al pf num1 num2 r pf' al' :
  wf pf = true -> phfwdAdd al pf num1 num2 = (r, pf', al') ->
  wf pf' = true.
Proof.
  intros Hwf H.
  destruct (phfwdAdd_cases _ _ _ _ H)
    as [(_ & -> & _) |
        (s1 & s2 & -> & -> & V1 & V2 & Hne & Hpf & Hadd)]; [exact Hwf |].
  destruct Hadd as [[_ Hadd] | (pf1 & _ & Hadd & ->)].
  - eapply wf_addPhoneForward; eauto.
  - rewrite (phfwdAdd_rollback _ _ _ V1 Hadd).
    eapply wf_addPhoneForward; eauto.
Qed.

(** ** Overwriting a rule *)

Lemma phfwdGet_exact pf n t :
  pf <> NULL -> valid n -> target_at pf (codes n) = Some t ->
  phfwdGet pf (Some n) = Some {| numbers := [Some t]; size := 1 |}.
Proof.
  intros Hpf Hn Ht. rewrite (phfwdGet_valid Hpf Hn).
  destruct (phoneForwardGet_spec n pf None 0 0)
    as [[Hno E] | (k & t' & (Hk & Ht' & Hdeep) & E)]; rewrite E.
  - specialize (Hno (length n) (le_n _)).
    rewrite firstn_all in Hno. congruence.
  - destruct (Nat.eq_dec k (length n)) as [-> | Hne].
    + rewrite firstn_all in Ht'. cbn [Nat.add].
      rewrite skipn_all, app_nil_r.
      rewrite Ht in Ht'. now injection Ht' as <-.
    + specialize (Hdeep (length n) ltac:(lia) (le_n _)).
      rewrite firstn_all in Hdeep. congruence.
Qed.

(** C8.  When [phfwdAdd] of the prefix [p] with the target [y] succeeds
    after a [phfwdAdd] of [p] with a target [x], the trie is the one a
    [phfwdAdd] of [p] with [y] alone gives; [phfwdGet] on [p] returns [y];
    and the rule of every path other than [p], longer or shorter, is as
    it was before the second call. *)
Theorem phfwdAdd_overwrite (al1 al2 : allocator) (pf : PhoneForward)
    (p y : cstring) (x : option cstring) (r1 : bool)
    (pf1 pf2 : PhoneForward) (al1' al2' : allocator) :
  wf pf = true ->
  phfwdAdd al1 pf (Some p) x = (r1, pf1, al1') ->
  phfwdAdd al2 pf1 (Some p) (Some y) = (true, pf2, al2') ->
  (forall al3 pf3 al3',
      phfwdAdd al3 pf (Some p) (Some y) = (true, pf3, al3') -> pf3 = pf2) /\
  phfwdGet pf2 (Some p) = Some {| numbers := [Some y]; size := 1 |} /\
  (forall path, path <> codes p ->
     target_at pf2 path = target_at pf1 path).
Proof.
  intros Hwf H1 H2.
  pose proof (wf_phfwdAdd _ _ _ _ Hwf H1) as Hwf1.
  destruct (phfwdAdd_cases _ _ _ _ H2)
    as [(? & _) | (p' & y' & [= <-] & [= <-] & Vp & Vy & _ & Hpf1 & Hadd2)];
    [discriminate |].
  destruct Hadd2 as [[_ Hadd2] | (? & ? & _)]; [| discriminate].
  apply addPhoneForward_true in Hadd2 as ->.
  split; [| split].
  - intros al3 pf3 al3' H3.
    destruct (phfwdAdd_cases _ _ _ _ H3)
      as [(? & _) | (? & ? & [= <-] & [= <-] & _ & _ & _ & Hpf & Hadd3)];
      [discriminate |].
    destruct Hadd3 as [[_ Hadd3] | (? & ? & _)]; [| discriminate].
    apply addPhoneForward_true in Hadd3 as ->.
    destruct (phfwdAdd_cases _ _ _ _ H1)
      as [(_ & -> & _) |
          (? & x' & [= <-] & -> & _ & _ & _ & _ & Hadd1)]; [reflexivity |].
    destruct Hadd1 as [[_ Hadd1] | (pf0 & _ & Hadd1 & ->)].
    + apply addPhoneForward_true in Hadd1 as ->.
      now rewrite store_store.
    + rewrite (phfwdAdd_rollback _ _ _ Vp Hadd1).
      symmetry. eapply addPhoneForward_false_store; eauto.
  - apply phfwdGet_exact; [apply store_not_NULL | exact Vp |].
    apply target_at_store_same; [exact Hwf1 | apply codes_lt].
  - intros path Hpath. now apply target_at_store_other.
Qed.

Lemma phfwdAdd_overwrite_witness :
  (forall al3 pf3 al3',
      phfwdAdd al3 trie_empty (Some (str "12")) (Some (str "4")) =
        (true, pf3, al3') -> pf3 = trie_12_to_4) /\
  phfwdGet trie_12_to_4 (Some (str "12")) =
    Some {| numbers := [Some (str "4")]; size := 1 |} /\
  (forall path, path <> codes (str "12") ->
     target_at trie_12_to_4 path = target_at trie_12_to_3 path).
Proof.
  apply (@phfwdAdd_overwrite [] [] trie_empty (str "12") (str "4")
           (Some (str "3")) true trie_12_to_3 trie_12_to_4 [] []);
    reflexivity.
Defined.

(** ** The tries of the interface *)

Lemma phoneForwardRemove_not_NULL pf rest :
  pf <> NULL -> phoneForwardRemove pf rest <> NULL.
Proof.
  destruct pf as [| fwd cs]; [congruence |]. intros _.
  destruct rest as [| c [| c' rest]]; discriminate.
Qed.

Lemma phfwdRemove_root pf num :
  (pf <> NULL -> phfwdRemove pf num <> NULL) /\
  target (phfwdRemove pf num) = target pf.
Proof.
  destruct (isNumberOk num) eqn:Hn.
  - destruct num as [n |]; [| discriminate].
    rewrite (phfwdRemove_valid pf Hn). apply valid_iff in Hn as [Hne _].
    split; [apply phoneForwardRemove_not_NULL |].
    apply (@phoneForwardRemove_other n Hne pf []).
    intros ext E. symmetry in E. apply app_eq_nil in E as [E _].
    destruct n; [congruence | discriminate].
  - rewrite (phfwdRemove_invalid pf _ Hn). tauto.
Qed.

Lemma phfwdAdd_root al pf num1 num2 r pf' al' :
  phfwdAdd al pf num1 num2 = (r, pf', al') ->
  (pf <> NULL -> pf' <> NULL) /\ target pf' = target pf.
Proof.
  intros H.
  destruct (phfwdAdd_cases _ _ _ _ H)
    as [(_ & -> & _) |
        (s1 & s2 & -> & -> & V1 & V2 & Hne & Hpf & Hadd)]; [tauto |].
  destruct Hadd as [[_ Hadd] | (pf1 & _ & Hadd & ->)].
  - apply addPhoneForward_true in Hadd as ->.
    split; [intros _; apply store_not_NULL |].
    apply (@target_at_store_other (codes s1) pf [] s2).
    apply valid_iff in V1 as [V1 _]. destruct s1; [congruence | discriminate].
  - rewrite (phfwdAdd_rollback _ _ _ V1 Hadd).
    apply addPhoneForward_false in Hadd as (Hq & _ & Hnn).
    split; [exact Hnn | exact (Hq [])].
Qed.

(** Every trie of the interface is a node that satisfies the invariant
    and holds no target at its root. *)
Lemma built_wf pf :
  built pf -> wf pf = true /\ pf <> NULL /\ target pf = None.
Proof.
  induction 1 as [al pf al' Hnew Hnn
                 | al pf num1 num2 r pf' al' _ (Hwf & Hnn & Ht) Hadd
                 | pf num _ (Hwf & Hnn & Ht)].
  - destruct (phfwdNew_cases al) as [[al0 E] | [al0 E]];
      rewrite E in Hnew; injection Hnew as <- _; [congruence |].
    repeat split. discriminate.
  - destruct (phfwdAdd_root _ _ _ _ Hadd) as [Hn' Ht'].
    repeat split; [eapply wf_phfwdAdd; eauto | auto | congruence].
  - destruct (phfwdRemove_root pf num) as [Hn' Ht'].
    repeat split; [now apply wf_phfwdRemove | auto | congruence].
Qed.

(** On a trie whose root holds no target, every string [phfwdReverse]
    hands to [phfwdGet] in [phfwdGetReverse] is a valid number. *)
Lemma reverse_candidates_valid pf n x :
  target pf = None -> valid n -> In x (reverseCells pf n) -> valid x.
Proof.
  intros Hroot Hn Hx. apply reverseCells_In in Hx as [-> | Hc]; [exact Hn |].
  apply valid_iff in Hn as [_ Hn].
  apply valid_iff. split; [| eapply candidate_symbols; eauto].
  destruct Hc as (P & t & s & _ & Ht & _ & ->).
  destruct P as [| c P]; [| discriminate].
  unfold target_at in Ht. simpl in Ht. congruence.
Qed.

(** Whatever algorithm [qsort] runs, on strings of symbols its result is
    the one of the embedding. *)
Lemma qsort_unique l l' :
  Forall symbols l -> Permutation l l' -> Sorted le_num l' ->
  l' = qsort l.
Proof.
  intros Hsym Hperm Hs.
  assert (Hp : Permutation l' (qsort l))
    by (rewrite <- Hperm; apply qsort_perm).
  assert (Hsym' : Forall symbols l').
  { apply Forall_forall. intros z Hz. rewrite Forall_forall in Hsym.
    apply Hsym. eapply Permutation_in; [symmetry; exact Hperm | exact Hz]. }
  apply (Sorted_StronglySorted le_num_trans) in Hs.
  pose proof (qsort_strongly_sorted l) as Hq.
  clear Hperm Hsym. revert Hp Hq Hs Hsym'.
  generalize (qsort l) as l2. clear l.
  induction l' as [| a l1 IH]; intros l2 Hp Hq Hs Hsym.
  - apply Permutation_nil in Hp. now subst.
  - destruct l2 as [| b l2];
      [symmetry in Hp; apply Permutation_nil in Hp; discriminate |].
    apply StronglySorted_inv in Hs as [Hs Ha].
    apply StronglySorted_inv in Hq as [Hq Hb].
    rewrite Forall_forall in Ha, Hb.
    inversion Hsym as [| ? ? Sa Sl]; subst.
    assert (a = b) as <-.
    { assert (Sb : symbols b).
      { rewrite Forall_forall in Hsym. apply Hsym.
        eapply Permutation_in; [symmetry; exact Hp | now left]. }
      assert (Hab : le_num a b).
      { assert (I : In b (a :: l1))
          by (eapply Permutation_in; [symmetry; exact Hp | now left]).
        destruct I as [<- | I]; [| now apply Ha].
        unfold le_num. rewrite comparator_refl. lia. }
      assert (Hba : le_num b a).
      { assert (I : In a (b :: l2))
          by (eapply Permutation_in; [exact Hp | now left]).
        destruct I as [<- | I]; [| now apply Hb].
        unfold le_num. rewrite comparator_refl. lia. }
      apply comparator_eq; auto. unfold le_num in *.
      rewrite (comparator_antisym a b) in Hba. lia. }
    f_equal. apply IH; auto. eapply Permutation_cons_inv; eauto.
Qed.

(** ** Tries with the same rules stay so *)

Lemma extends_dec (c path : list nat) :
  (exists ext, path = c ++ ext) \/ (forall ext, path <> c ++ ext).
Proof.
  destruct (list_eq_dec Nat.eq_dec (firstn (length c) path) c) as [E | N].
  - left. exists (skipn (length c) path).
    rewrite <- E at 1. symmetry. apply firstn_skipn.
  - right. intros ext ->. apply N.
    now rewrite firstn_app, firstn_all, Nat.sub_diag, app_nil_r.
Qed.

(** The rules left by [phfwdRemove] of a valid number. *)
Lemma phfwdRemove_rules pf n :
  valid n ->
  (forall ext, target_at (phfwdRemove pf (Some n)) (codes n ++ ext) = None)
  /\ (forall path, (forall ext, path <> codes n ++ ext) ->
        target_at (phfwdRemove pf (Some n)) path = target_at pf path).
Proof.
  intros Hn. rewrite (phfwdRemove_valid pf Hn).
  apply valid_iff in Hn as [Hne _]. split.
  - intros ext. unfold target_at.
    rewrite subtrie_app, phoneForwardRemove_gone by exact Hne.
    now rewrite subtrie_NULL.
  - now apply phoneForwardRemove_other.
Qed.

Lemma same_rules_phfwdRemove pf pf' num :
  same_rules pf pf' ->
  same_rules (phfwdRemove pf num) (phfwdRemove pf' num).
Proof.
  intros Hsame path. destruct (isNumberOk num) eqn:Hn.
  - destruct num as [n |]; [| discriminate].
    destruct (phfwdRemove_rules pf Hn) as (G & O).
    destruct (phfwdRemove_rules pf' Hn) as (G' & O').
    destruct (extends_dec (codes n) path) as [[ext ->] | Hne].
    + now rewrite G, G'.
    + rewrite (O _ Hne), (O' _ Hne). apply Hsame.
  - rewrite !phfwdRemove_invalid by exact Hn. apply Hsame.
Qed.

Lemma same_rules_phfwdAdd al al' pf pf' num1 num2 pf1 pf1' al1 al1' :
  wf pf = true -> wf pf' = true -> same_rules pf pf' ->
  phfwdAdd al pf num1 num2 = (true, pf1, al1) ->
  phfwdAdd al' pf' num1 num2 = (true, pf1', al1') ->
  same_rules pf1 pf1'.
Proof.
  intros Hwf Hwf' Hsame H H'.
  destruct (phfwdAdd_cases _ _ _ _ H)
    as [(? & _) | (s1 & s2 & -> & -> & _ & _ & _ & _ & Hadd)];
    [discriminate |].
  destruct (phfwdAdd_cases _ _ _ _ H')
    as [(? & _) | (? & ? & [= <-] & [= <-] & _ & _ & _ & _ & Hadd')];
    [discriminate |].
  destruct Hadd as [[_ Hadd] | (? & ? & _)]; [| discriminate].
  destruct Hadd' as [[_ Hadd'] | (? & ? & _)]; [| discriminate].
  apply addPhoneForward_true in Hadd as ->.
  apply addPhoneForward_true in Hadd' as ->.
  intros path.
  destruct (list_eq_dec Nat.eq_dec path (codes s1)) as [-> | Hne].
  - rewrite !target_at_store_same; auto using codes_lt.
  - rewrite !target_at_store_other by exact Hne. apply Hsame.
Qed.

(** * Further properties of the code *)

(** ** Symbols and their codes *)

(** X1.  [charToInt] and [intToChar] are inverse to each other between
    the twelve symbols and the codes [0] to [BASE - 1]. *)
Theorem symbol_code_bijection :
  (forall c, isSymbol c = true ->
     charToInt c < BASE /\ intToChar (charToInt c) = c) /\
  (forall k, k < BASE ->
     isSymbol (intToChar k) = true /\ charToInt (intToChar k) = k) /\
  map charToInt alphabet = seq 0 BASE.
Proof.
  split; [| split].
  - intros c Hc. split; [apply charToInt_lt | now apply intToChar_charToInt].
  - intros k Hk.
    split; [apply isSymbol_intToChar | now apply charToInt_intToChar].
  - reflexivity.
Qed.

(** X2.  Outside their domains the conversions stay in range: every
    character that is not a symbol has the code [11] of [#], so the index
    [charToInt] gives is always inside the child array, and every number
    above [10] is turned into [#]. *)
Theorem conversions_out_of_domain :
  (forall c, charToInt c < BASE) /\
  (forall c, isSymbol c = false -> charToInt c = 11) /\
  (forall x, isSymbol (intToChar x) = true) /\
  (forall x, 10 < x -> intToChar x = hash).
Proof.
  repeat split.
  - apply charToInt_lt.
  - intros c Hc. unfold isSymbol in Hc. unfold charToInt.
    apply orb_false_iff in Hc as [Hc _].
    apply orb_false_iff in Hc as [-> ->]. reflexivity.
  - apply isSymbol_intToChar.
  - intros x Hx. unfold intToChar.
    destruct (Nat.leb_spec x 9); [lia |].
    destruct (Nat.eqb_spec x 10); [lia | reflexivity].
Qed.

(** X3.  [isNumberOk] accepts exactly the strings that are present, not
    empty and made of characters of the alphabet. *)
Theorem isNumberOk_true (num : option cstring) :
  isNumberOk num = true <->
  exists s, num = Some s /\ s <> [] /\ forall c, In c s -> In c alphabet.
Proof.
  split.
  - intros H. destruct num as [s |]; [| discriminate].
    apply valid_iff in H as [Hne Hs]. exists s. repeat split; auto.
    intros c Hc. apply isSymbol_alphabet.
    unfold symbols in Hs. rewrite forallb_forall in Hs. now apply Hs.
  - intros (s & -> & Hne & Hs). apply valid_iff. split; [exact Hne |].
    unfold symbols. apply forallb_forall. intros c Hc.
    apply isSymbol_alphabet. now apply Hs.
Qed.

(** ** Prefixes *)

(** X4.  [isPrefixOf] decides whether its first argument is a textual
    prefix of the second; when it is, dropping as many characters as the
    prefix has gives the rest. *)
Theorem isPrefixOf_decides (p num : cstring) :
  (isPrefixOf p num = true <-> prefix_of p num) /\
  (forall s, num = p ++ s -> skipn (strlen p) num = s) /\
  (strlen num < strlen p -> isPrefixOf p num = false).
Proof.
  split; [apply isPrefixOf_spec | split].
  - intros s ->. apply skipn_strlen_app.
  - intros H. unfold isPrefixOf.
    now apply Nat.ltb_lt in H as ->.
Qed.

(** ** The order of [comparator] *)

Lemma comparator_range a b :
  comparator a b = (-1)%Z \/ comparator a b = 0%Z \/ comparator a b = 1%Z.
Proof.
  revert b. induction a as [| x a IH]; intros [| y b]; simpl; auto.
  cmp_cases x y; auto.
Qed.

Lemma comparator_zero_codes a b :
  comparator a b = 0%Z <-> codes a = codes b.
Proof.
  revert b. induction a as [| x a IH]; intros [| y b]; simpl;
    try (split; [discriminate | discriminate]); [tauto |].
  cmp_cases x y; try (split; [discriminate | intros [= E _]; lia]).
  rewrite IH. split; [intros -> | intros [= _ E]; exact E].
  f_equal. lia.
Qed.

Lemma codes_inj a b : symbols a -> symbols b -> codes a = codes b -> a = b.
Proof.
  intros Ha Hb E.
  rewrite <- (intToChar_codes Ha), <- (intToChar_codes Hb). now rewrite E.
Qed.

(** X5.  [comparator] returns [-1], [0] or [1]; swapping the arguments
    negates the result; "not after" is transitive; and the result is [0]
    exactly when both strings have the same codes, which for strings of
    symbols means that they are equal.  So it is a total order on numbers,
    as [qsort] needs. *)
Theorem comparator_total_order :
  (forall a b, comparator a b = (-1)%Z \/ comparator a b = 0%Z \/
               comparator a b = 1%Z) /\
  (forall a b, comparator b a = (- comparator a b)%Z) /\
  (forall a b c, le_num a b -> le_num b c -> le_num a c) /\
  (forall a b, comparator a b = 0%Z <-> codes a = codes b) /\
  (forall a b, symbols a -> symbols b ->
               (comparator a b = 0%Z <-> a = b)).
Proof.
  split; [exact comparator_range |].
  split; [exact comparator_antisym |].
  split; [exact comparator_le_trans |].
  split; [exact comparator_zero_codes |].
  intros a b Ha Hb. split.
  - now apply comparator_eq.
  - intros ->. apply comparator_refl.
Qed.

Lemma min_S a b : SizeT.min (S a) (S b) = S (SizeT.min a b).
Proof.
  unfold SizeT.min. change (S a <=? S b) with (a <=? b).
  now destruct (a <=? b).
Qed.

Lemma comparatorLoop_spec a :
  forall b pre1 pre2 i,
    length pre1 = i -> length pre2 = i ->
    match
      comparatorLoop (pre1 ++ a) (pre2 ++ b) i
        (SizeT.min (length a) (length b))
    with
    | Some r => r
    | None =>
        if length a <? length b then (-1)%Z
        else if length b <? length a then 1%Z
        else 0%Z
    end = comparator a b.
Proof.
  induction a as [| x a IH]; intros [| y b] pre1 pre2 i H1 H2;
    try reflexivity.
  cbn [length]. rewrite min_S. cbn [comparatorLoop comparator].
  subst i. rewrite nth_middle. rewrite <- H2. rewrite nth_middle.
  destruct (charToInt y <? charToInt x); [reflexivity |].
  destruct (charToInt x <? charToInt y); [reflexivity |].
  change (S (length a) <? S (length b)) with (length a <? length b).
  change (S (length b) <? S (length a)) with (length b <? length a).
  specialize (IH b (pre1 ++ [x]) (pre2 ++ [y]) (S (length pre2))).
  rewrite <- !app_assoc in IH. apply IH; rewrite length_app; simpl; lia.
Qed.

(** X6.  The loop of [comparator] over the positions below
    [min(len1, len2)], followed by the comparison of the lengths, returns
    the result of comparing the strings symbol by symbol: the first
    position where the codes differ decides, and of two strings that agree
    on the shorter one the shorter comes first. *)
Theorem comparatorIndexed_comparator (num1 num2 : cstring) :
  comparatorIndexed num1 num2 = comparator num1 num2 /\
  (le_num num1 num2 <-> code_le num1 num2).
Proof.
  split; [| apply comparator_code_le].
  unfold comparatorIndexed, strlen.
  exact (comparatorLoop_spec num1 num2 [] [] eq_refl eq_refl).
Qed.

(** ** Growth of the buffers *)

(** X7.  For a [size_t] of at least two values above zero, [newSize]
    never wraps around: its result is at most [SIZE_MAX], it is
    [2 * size + 1] while that fits and [SIZE_MAX] from there on, and it is
    larger than [size] unless [size] is [SIZE_MAX] already. *)
Theorem newSize_grows (SIZE_MAX size : N) :
  (2 <= SIZE_MAX)%N -> (size <= SIZE_MAX)%N ->
  (SizeT.newSize SIZE_MAX size <= SIZE_MAX)%N /\
  (size < SIZE_MAX -> size < SizeT.newSize SIZE_MAX size)%N /\
  ((2 * size + 1 <= SIZE_MAX - 1)%N ->
   SizeT.newSize SIZE_MAX size = (2 * size + 1)%N) /\
  ((SIZE_MAX - 1 < 2 * size + 1)%N ->
   SizeT.newSize SIZE_MAX size = SIZE_MAX).
Proof.
  intros Hmax Hsize.
  pose proof (N.Div0.div_mod SIZE_MAX 2) as Hdiv.
  pose proof (N.mod_upper_bound SIZE_MAX 2 ltac:(lia)) as Hmod.
  set (h := (SIZE_MAX / 2)%N) in *. set (r := (SIZE_MAX mod 2)%N) in *.
  assert (Hsub : SizeT.sub SIZE_MAX h 1 = (h - 1)%N).
  { unfold SizeT.sub, SizeT.wrap.
    replace (h + (SIZE_MAX + 1) - 1)%N
      with ((h - 1) + 1 * (SIZE_MAX + 1))%N by lia.
    rewrite N.Div0.mod_add. apply N.mod_small. lia. }
  unfold SizeT.newSize. fold h. rewrite Hsub.
  destruct (N.ltb_spec (h - 1) size) as [Hbig | Hsmall].
  - repeat split; lia.
  - assert (E : SizeT.wrap SIZE_MAX (SizeT.wrap SIZE_MAX (size * 2) + 1)
                = (2 * size + 1)%N).
    { unfold SizeT.wrap. rewrite (N.mod_small (size * 2)) by lia.
      rewrite N.mod_small by lia. lia. }
    rewrite E. repeat split; lia.
Qed.

Lemma newSize_grows_witness :
  (SizeT.newSize size_max_64 7 <= size_max_64)%N /\
  (7 < size_max_64 -> 7 < SizeT.newSize size_max_64 7)%N /\
  ((2 * 7 + 1 <= size_max_64 - 1)%N ->
   SizeT.newSize size_max_64 7 = (2 * 7 + 1)%N) /\
  ((size_max_64 - 1 < 2 * 7 + 1)%N ->
   SizeT.newSize size_max_64 7 = size_max_64).
Proof.
  apply (@newSize_grows size_max_64 7); vm_compute; discriminate.
Defined.

(** ** What [phfwdGet] returns *)

Lemma phfwdGet_no_rule pf n :
  pf <> NULL -> valid n -> no_rule pf n ->
  phfwdGet pf (Some n) = Some {| numbers := [Some n]; size := 1 |}.
Proof.
  intros Hpf Hn Hno. rewrite (phfwdGet_valid Hpf Hn).
  destruct (phoneForwardGet_spec n pf None 0 0)
    as [[_ E] | (k & t & (Hk & Ht & _) & _)]; [now rewrite E |].
  rewrite (Hno k Hk) in Ht. discriminate.
Qed.

Lemma phfwdGet_deepest pf n j t :
  pf <> NULL -> valid n -> deepest_rule pf n j t ->
  phfwdGet pf (Some n) =
  Some {| numbers := [Some (t ++ skipn j n)]; size := 1 |}.
Proof.
  intros Hpf Hn (Hj & Ht & Hdeep). rewrite (phfwdGet_valid Hpf Hn).
  destruct (phoneForwardGet_spec n pf None 0 0)
    as [[Hno _] | (k & t' & (Hk & Ht' & Hdeep') & E)].
  - rewrite (Hno j Hj) in Ht. discriminate.
  - rewrite E. cbn [Nat.add].
    destruct (Nat.lt_trichotomy j k) as [L | [<- | L]].
    + rewrite (Hdeep k L Hk) in Ht'. discriminate.
    + rewrite Ht in Ht'. now injection Ht' as <-.
    + rewrite (Hdeep' j L Hj) in Ht. discriminate.
Qed.

Lemma phfwdGet_rule_cases pf n :
  pf <> NULL -> valid n ->
  (exists j t,
     deepest_rule pf n j t /\
     phfwdGet pf (Some n) =
       Some {| numbers := [Some (t ++ skipn j n)]; size := 1 |}) \/
  (no_rule pf n /\
   phfwdGet pf (Some n) = Some {| numbers := [Some n]; size := 1 |}).
Proof.
  intros Hpf Hn. rewrite (phfwdGet_valid Hpf Hn).
  destruct (phoneForwardGet_spec n pf None 0 0)
    as [[Hno E] | (k & t & Hdeep & E)]; rewrite E.
  - right. split; [exact Hno | reflexivity].
  - left. exists k, t. split; [exact Hdeep | reflexivity].
Qed.

Lemma phfwdGet_Some_valid pf n m :
  phfwdGet pf (Some n) = Some {| numbers := [Some m]; size := 1 |} ->
  pf <> NULL /\ valid n.
Proof.
  unfold phfwdGet, valid. destruct pf as [| fwd cs]; [discriminate |].
  destruct (isNumberOk (Some n)); [split; [discriminate | reflexivity] |].
  discriminate.
Qed.

Lemma symbols_firstn k s : symbols s -> symbols (firstn k s).
Proof.
  intros H. rewrite <- (firstn_skipn k s) in H.
  now apply symbols_app in H.
Qed.

(** ** The invariant of the interface *)

Lemma no_self_forward_built pf : built pf -> no_self_forward pf.
Proof.
  induction 1 as [al pf al' Hnew Hnn
                 | al pf num1 num2 r pf' al' Hb IH Hadd
                 | pf num Hb IH].
  - destruct (phfwdNew_cases al) as [[al0 E] | [al0 E]];
      rewrite E in Hnew; injection Hnew as <- _; [congruence |].
    intros P t _ Ht. rewrite target_at_fresh in Ht. discriminate.
  - destruct (built_wf Hb) as (Hwf & _ & _).
    destruct (phfwdAdd_cases _ _ _ _ Hadd)
      as [(_ & -> & _) |
          (s1 & s2 & -> & -> & V1 & V2 & Hne & Hpf & Hcase)]; [exact IH |].
    destruct Hcase as [[_ Hs] | (pf1 & _ & Hf & ->)].
    + apply addPhoneForward_true in Hs as ->.
      intros P t HP Ht.
      destruct (list_eq_dec Nat.eq_dec (codes P) (codes s1)) as [E | N].
      * rewrite E, target_at_store_same in Ht by (auto using codes_lt).
        injection Ht as <-. apply valid_iff in V1 as [_ V1].
        apply codes_inj in E; auto. congruence.
      * rewrite target_at_store_other in Ht by exact N. now apply IH.
    + rewrite (phfwdAdd_rollback _ _ _ V1 Hf).
      apply addPhoneForward_false in Hf as (Hq & _ & _).
      intros P t HP Ht. rewrite Hq in Ht. now apply IH.
  - intros P t HP Ht. destruct (isNumberOk num) eqn:Hn.
    + destruct num as [n |]; [| discriminate].
      destruct (phfwdRemove_rules pf Hn) as (G & O).
      destruct (extends_dec (codes n) (codes P)) as [[ext E] | Hne].
      * rewrite E, G in Ht. discriminate.
      * rewrite (O _ Hne) in Ht. now apply IH.
    + rewrite (phfwdRemove_invalid pf _ Hn) in Ht. now apply IH.
Qed.

(** X8.  Every trie made by [phfwdNew] and changed by [phfwdAdd] and
    [phfwdRemove] is a node whose descendants all have their [BASE] child
    slots, stores only valid numbers as targets, holds no target at its
    root and forwards no prefix to itself. *)
Theorem built_invariant (pf : PhoneForward) :
  built pf ->
  pf <> NULL /\ wf pf = true /\ target pf = None /\ no_self_forward pf.
Proof.
  intros Hb. destruct (built_wf Hb) as (Hwf & Hnn & Ht).
  repeat split; auto. now apply no_self_forward_built.
Qed.

Lemma built_trie_empty : built trie_empty.
Proof. apply (@built_new [] trie_empty []); [reflexivity | discriminate]. Qed.

Lemma built_trie_12_123 : built trie_12_123.
Proof.
  apply (@built_add [] trie_12_to_1 (Some (str "123")) (Some (str "2"))
           true trie_12_123 []); [| reflexivity].
  apply (@built_add [] trie_empty (Some (str "12")) (Some (str "1"))
           true trie_12_to_1 []); [apply built_trie_empty | reflexivity].
Qed.

Lemma built_invariant_witness :
  trie_12_123 <> NULL /\ wf trie_12_123 = true /\
  target trie_12_123 = None /\ no_self_forward trie_12_123.
Proof. apply (@built_invariant trie_12_123). exact built_trie_12_123. Defined.

(** X9.  On a trie that satisfies the invariant, [phfwdGet] maps a valid
    number to a valid number, so its result can be looked up again. *)
Theorem phfwdGet_valid_result (pf : PhoneForward) (n : cstring) :
  pf <> NULL -> wf pf = true -> valid n ->
  exists r,
    phfwdGet pf (Some n) = Some {| numbers := [Some r]; size := 1 |} /\
    valid r.
Proof.
  intros Hpf Hwf Hn.
  destruct (phfwdGet_rule_cases Hpf Hn)
    as [(j & t & (Hj & Ht & _) & E) | (_ & E)];
    eexists; (split; [exact E |]); [| exact Hn].
  apply (@wf_target pf _ t Hwf) in Ht.
  apply valid_iff in Ht as [Hne Hs]. apply valid_iff in Hn as [_ Hn].
  apply valid_iff. split.
  - destruct t; [congruence | discriminate].
  - apply symbols_app. split; [exact Hs | now apply symbols_skipn].
Qed.

Lemma phfwdGet_valid_result_witness :
  exists r,
    phfwdGet trie_12_123 (Some (str "1234")) =
      Some {| numbers := [Some r]; size := 1 |} /\
    valid r.
Proof.
  apply (@phfwdGet_valid_result trie_12_123 (str "1234")).
  - vm_compute. discriminate.
  - reflexivity.
  - reflexivity.
Defined.

(** X10.  On a trie of the interface, [phfwdGet] returns a valid number
    unchanged exactly when no node on its path holds a target: a rule
    that applies always changes the number. *)
Theorem phfwdGet_fixed_point (pf : PhoneForward) (n : cstring) :
  built pf -> valid n ->
  (phfwdGet pf (Some n) = Some {| numbers := [Some n]; size := 1 |} <->
   no_rule pf n).
Proof.
  intros Hb Hn. destruct (built_wf Hb) as (_ & Hpf & _).
  pose proof (no_self_forward_built Hb) as Hself.
  split; [| now apply phfwdGet_no_rule].
  intros E.
  destruct (phfwdGet_rule_cases Hpf Hn)
    as [(j & t & (Hj & Ht & _) & E') | (Hno & _)];
    [| exact Hno].
  rewrite E in E'. injection E' as E'.
  rewrite <- (firstn_skipn j n) in E' at 1.
  apply app_inv_tail in E'. exfalso.
  apply (Hself (firstn j n) t); auto.
  apply valid_iff in Hn as [_ Hn]. now apply symbols_firstn.
Qed.

Lemma phfwdGet_fixed_point_witness :
  phfwdGet trie_12_123 (Some (str "13")) =
    Some {| numbers := [Some (str "13")]; size := 1 |} <->
  no_rule trie_12_123 (str "13").
Proof.
  apply (@phfwdGet_fixed_point trie_12_123 (str "13")).
  - exact built_trie_12_123.
  - reflexivity.
Defined.

(** ** Reverse lookup against forward lookup *)

(** A number that [phfwdGet] maps to [m] is among the strings
    [phfwdReverse] collects for [m]. *)
Lemma phfwdGet_in_reverseCells pf n m :
  phfwdGet pf (Some n) = Some {| numbers := [Some m]; size := 1 |} ->
  In n (reverseCells pf m).
Proof.
  intros E. destruct (phfwdGet_Some_valid _ _ E) as [Hpf Hn].
  apply reverseCells_In.
  destruct (phfwdGet_rule_cases Hpf Hn)
    as [(j & t & (Hj & Ht & _) & E') | (_ & E')];
    rewrite E in E'; injection E' as ->; [right | now left].
  exists (firstn j n), t, (skipn j n). repeat split; auto.
  - apply valid_iff in Hn as [_ Hn]. now apply symbols_firstn.
  - symmetry. apply firstn_skipn.
Qed.

Lemma forwardsTo_true pf m n :
  pf <> NULL ->
  (forwardsTo pf m (Some n) = true <->
   phfwdGet pf (Some n) = Some {| numbers := [Some m]; size := 1 |}).
Proof.
  intros Hpf. rewrite forwardsTo_resolvesTo. split.
  - now apply resolvesTo_true.
  - intros E. unfold resolvesTo. rewrite E. simpl. apply streq_refl.
Qed.

(** X11.  On a trie and a valid number [m], the list of
    [phfwdGetReverse] holds exactly the numbers that [phfwdGet] maps to
    [m]: it is the inverse image of [m] under forward lookup. *)
Theorem phfwdGetReverse_inverse_image (pf : PhoneForward) (m : cstring) :
  pf <> NULL -> valid m ->
  exists res,
    phfwdGetReverse pf (Some m) = Some res /\
    size res = length (numbers res) /\
    (forall y, In y (numbers res) -> exists n, y = Some n) /\
    forall n,
      In (Some n) (numbers res) <->
      phfwdGet pf (Some n) = Some {| numbers := [Some m]; size := 1 |}.
Proof.
  intros Hpf Hm. rewrite (phfwdGetReverse_valid Hpf Hm).
  eexists. split; [reflexivity |]. cbn [numbers size].
  split; [reflexivity |]. split.
  - intros y Hy. apply filter_In in Hy as [Hy _].
    apply in_map_iff in Hy as (n & <- & _). now exists n.
  - intros n. rewrite filter_In, (forwardsTo_true m n Hpf). split.
    + tauto.
    + intros E. split; [| exact E].
      apply in_map. now apply phfwdGet_in_reverseCells.
Qed.

Lemma phfwdGetReverse_inverse_image_witness :
  exists res,
    phfwdGetReverse trie_13 (Some (str "513")) = Some res /\
    size res = length (numbers res) /\
    (forall y, In y (numbers res) -> exists n, y = Some n) /\
    forall n,
      In (Some n) (numbers res) <->
      phfwdGet trie_13 (Some n) =
        Some {| numbers := [Some (str "513")]; size := 1 |}.
Proof.
  apply (@phfwdGetReverse_inverse_image trie_13 (str "513")).
  - vm_compute. discriminate.
  - reflexivity.
Defined.

(** X12.  Whenever [phfwdGet] maps a number [n] to a valid number [m],
    [n] is in the list [phfwdReverse] returns for [m]: the reverse list
    misses no number that forwards to [m]. *)
Theorem phfwdReverse_covers_phfwdGet (pf : PhoneForward) (n m : cstring) :
  valid m ->
  phfwdGet pf (Some n) = Some {| numbers := [Some m]; size := 1 |} ->
  exists out,
    holds (phfwdReverse pf (Some m)) out /\ In n out.
Proof.
  intros Hm E. destruct (phfwdGet_Some_valid _ _ E) as [Hpf _].
  exists (reverseCells pf m).
  split; [now apply phfwdReverse_valid |].
  now apply phfwdGet_in_reverseCells.
Qed.

Lemma phfwdReverse_covers_phfwdGet_witness :
  exists out,
    holds (phfwdReverse trie_12_123 (Some (str "24"))) out /\
    In (str "1234") out.
Proof.
  apply (@phfwdReverse_covers_phfwdGet trie_12_123 (str "1234") (str "24"));
    reflexivity.
Defined.

(** ** The cells of the lists *)

Lemma nth_map_Some (l : list cstring) idx :
  idx < length l -> nth idx (map Some l) None = Some (nth idx l []).
Proof.
  intros H.
  rewrite (@nth_indep _ (map Some l) idx None (Some []))
    by now rewrite length_map.
  apply map_nth.
Qed.

Lemma filter_map_Some (f : option cstring -> bool) (l : list cstring) :
  filter f (map Some l) = map Some (filter (fun s => f (Some s)) l).
Proof.
  induction l as [| x l IH]; [reflexivity |]. simpl.
  destruct (f (Some x)); simpl; now rewrite IH.
Qed.

(** The strings of the list [phfwdGetReverse] returns for a valid
    number. *)
Lemma phfwdGetReverse_holds pf n :
  pf <> NULL -> valid n ->
  holds (phfwdGetReverse pf (Some n))
    (filter (fun s => forwardsTo pf n (Some s)) (reverseCells pf n)).
Proof.
  intros Hpf Hn. unfold holds. rewrite (phfwdGetReverse_valid Hpf Hn).
  now rewrite filter_map_Some, length_map.
Qed.

Lemma holds_phnumGet res out :
  holds res out ->
  forall idx,
    (idx < length out -> phnumGet res idx = Some (nth idx out [])) /\
    (length out <= idx -> phnumGet res idx = None).
Proof.
  intros -> idx. unfold phnumGet. cbn [size numbers]. split; intros H.
  - destruct (Nat.leb_spec (length out) idx); [lia |].
    now apply nth_map_Some.
  - now apply Nat.leb_le in H as ->.
Qed.

(** X13.  On a trie of the interface and a valid number, [phnumGet] on
    the lists of [phfwdReverse] and [phfwdGetReverse] returns a valid
    number at every index below the size, and [NULL] at every index from
    the size on. *)
Theorem phnumGet_cells (pf : PhoneForward) (n : cstring) :
  built pf -> valid n ->
  valid_cells (phfwdReverse pf (Some n)) /\
  valid_cells (phfwdGetReverse pf (Some n)).
Proof.
  intros Hb Hn.
  destruct (built_wf Hb) as (_ & Hpf & Hroot).
  assert (H : forall res out,
             holds res out -> incl out (reverseCells pf n) ->
             valid_cells res).
  { intros res out Hout Hincl.
    pose proof (holds_phnumGet Hout) as Hget. unfold holds in Hout.
    eexists. split; [exact Hout |]. cbn [size]. intros idx.
    destruct (Hget idx) as [Hlt Hge]. split; [| exact Hge].
    intros Hidx. exists (nth idx out []). split; [now apply Hlt |].
    apply (@reverse_candidates_valid pf n); auto.
    apply Hincl. now apply nth_In. }
  split.
  - apply (H _ (reverseCells pf n));
      [now apply phfwdReverse_valid | apply incl_refl].
  - eapply H; [now apply phfwdGetReverse_holds |].
    intros s Hs. now apply filter_In in Hs.
Qed.

Lemma phnumGet_cells_witness :
  valid_cells (phfwdReverse trie_12_123 (Some (str "24"))) /\
  valid_cells (phfwdGetReverse trie_12_123 (Some (str "24"))).
Proof.
  apply (@phnumGet_cells trie_12_123 (str "24")).
  - exact built_trie_12_123.
  - reflexivity.
Defined.

Lemma StronglySorted_filter (A : Type) (R : A -> A -> Prop) f l :
  StronglySorted R l -> StronglySorted R (filter f l).
Proof.
  induction 1 as [| x l _ IH F]; simpl; [constructor |].
  destruct (f x); [| exact IH]. constructor; [exact IH |].
  rewrite Forall_forall in *. intros y Hy.
  apply filter_In in Hy as [Hy _]. now apply F.
Qed.

(** X14.  On a trie and a valid number, the list of [phfwdGetReverse]
    is, like the list of [phfwdReverse] it is taken from, increasing in
    the order of the codes and free of repetitions, and all its elements
    are elements of the list of [phfwdReverse]. *)
Theorem phfwdGetReverse_sorted (pf : PhoneForward) (n : cstring) :
  pf <> NULL -> valid n ->
  exists out rev,
    holds (phfwdGetReverse pf (Some n)) out /\
    holds (phfwdReverse pf (Some n)) rev /\
    Sorted code_le out /\ NoDup out /\ incl out rev /\
    length out <= length rev.
Proof.
  intros Hpf Hn. do 2 eexists.
  split; [now apply phfwdGetReverse_holds |].
  split; [now apply phfwdReverse_valid |].
  pose proof Hn as Hv. apply valid_iff in Hv as [_ Hs].
  pose proof (StronglySorted_filter (fun s => forwardsTo pf n (Some s))
                (reverseCells_strict pf Hs)) as Hsorted.
  repeat split.
  - now apply strictly_sorted_le.
  - now apply strictly_sorted_NoDup.
  - intros s H. now apply filter_In in H.
  - apply filter_length_le.
Qed.

Lemma phfwdGetReverse_sorted_witness :
  exists out rev,
    holds (phfwdGetReverse trie_13 (Some (str "513"))) out /\
    holds (phfwdReverse trie_13 (Some (str "513"))) rev /\
    Sorted code_le out /\ NoDup out /\ incl out rev /\
    length out <= length rev.
Proof.
  apply (@phfwdGetReverse_sorted trie_13 (str "513")).
  - vm_compute. discriminate.
  - reflexivity.
Defined.

(** ** Removal, composed *)

Lemma same_rules_same_answers pf pf' :
  (pf = NULL <-> pf' = NULL) -> same_rules pf pf' -> same_answers pf pf'.
Proof.
  intros Hnull Hsame q. repeat split.
  - now apply phfwdGet_ext.
  - now apply phfwdReverse_ext.
  - now apply phfwdGetReverse_ext.
Qed.

(** X15.  [phfwdRemove] is idempotent: removing the same number a second
    time changes nothing, whatever the trie and the number. *)
Theorem phfwdRemove_idempotent (pf : PhoneForward) (num : option cstring) :
  phfwdRemove (phfwdRemove pf num) num = phfwdRemove pf num.
Proof.
  destruct (isNumberOk num) eqn:Hn.
  - destruct num as [n |]; [| discriminate].
    rewrite (phfwdRemove_valid (phfwdRemove pf (Some n)) Hn).
    rewrite (phfwdRemove_valid pf Hn).
    apply valid_iff in Hn as [Hne _].
    apply phoneForwardRemove_absent; [exact Hne |].
    now apply phoneForwardRemove_gone.
  - now rewrite !(phfwdRemove_invalid _ _ Hn).
Qed.

(** X16.  [phfwdRemove] of a prefix undoes a successful [phfwdAdd] of
    that prefix, together with whatever was below it: the trie holds the
    rules, and gives the answers, of the trie from which the prefix was
    removed without the addition. *)
Theorem phfwdRemove_after_phfwdAdd (al : allocator) (pf : PhoneForward)
    (p y : cstring) (pf2 : PhoneForward) (al' : allocator) :
  phfwdAdd al pf (Some p) (Some y) = (true, pf2, al') ->
  same_rules (phfwdRemove pf (Some p)) (phfwdRemove pf2 (Some p)) /\
  same_answers (phfwdRemove pf (Some p)) (phfwdRemove pf2 (Some p)).
Proof.
  intros H.
  destruct (phfwdAdd_cases _ _ _ _ H)
    as [(? & _) | (? & ? & [= <-] & [= <-] & Vp & Vy & _ & Hpf & Hadd)];
    [discriminate |].
  destruct Hadd as [[_ Hadd] | (? & ? & _)]; [| discriminate].
  apply addPhoneForward_true in Hadd as ->.
  assert (Hsame : same_rules (phfwdRemove pf (Some p))
                    (phfwdRemove (store pf (codes p) y) (Some p))).
  { intros path.
    destruct (phfwdRemove_rules pf Vp) as (G & O).
    destruct (phfwdRemove_rules (store pf (codes p) y) Vp) as (G' & O').
    destruct (extends_dec (codes p) path) as [[ext ->] | Hne].
    - now rewrite G, G'.
    - rewrite (O _ Hne), (O' _ Hne). apply target_at_store_other.
      intros ->. apply (Hne []). now rewrite app_nil_r. }
  split; [exact Hsame |].
  apply same_rules_same_answers; [| exact Hsame].
  destruct (phfwdRemove_root pf (Some p)) as [N1 _].
  destruct (phfwdRemove_root (store pf (codes p) y) (Some p)) as [N2 _].
  pose proof (@store_not_NULL pf (codes p) y).
  split; intros E; exfalso; [now apply N1 in E | now apply N2 in E].
Qed.

Lemma phfwdRemove_after_phfwdAdd_witness :
  same_rules (phfwdRemove trie_12_to_1 (Some (str "123")))
    (phfwdRemove trie_12_123 (Some (str "123"))) /\
  same_answers (phfwdRemove trie_12_to_1 (Some (str "123")))
    (phfwdRemove trie_12_123 (Some (str "123"))).
Proof.
  apply (@phfwdRemove_after_phfwdAdd [] trie_12_to_1 (str "123") (str "2")
           trie_12_123 []).
  reflexivity.
Defined.

(** ** What [phfwdGet] answers after a change *)

Lemma phoneForwardGet_ext_path pf pf' rest pn j i :
  (forall k, k <= length rest ->
     target_at pf' (codes (firstn k rest)) =
     target_at pf (codes (firstn k rest))) ->
  phoneForwardGet pf' rest pn j i = phoneForwardGet pf rest pn j i.
Proof.
  intros Hsame.
  destruct (phoneForwardGet_spec rest pf pn j i)
    as [[Hno E] | (k & t & (Hk & Ht & Hdeep) & E)];
  destruct (phoneForwardGet_spec rest pf' pn j i)
    as [[Hno' E'] | (k' & t' & (Hk' & Ht' & Hdeep') & E')];
  rewrite E, E'.
  - reflexivity.
  - rewrite Hsame, (Hno k' Hk') in Ht' by exact Hk'. discriminate.
  - rewrite <- Hsame, (Hno' k Hk) in Ht by exact Hk. discriminate.
  - destruct (Nat.lt_trichotomy k k') as [L | [<- | L]].
    + rewrite Hsame, (Hdeep k' L Hk') in Ht' by exact Hk'. discriminate.
    + rewrite Hsame in Ht' by exact Hk. congruence.
    + rewrite <- Hsame, (Hdeep' k L Hk) in Ht by exact Hk. discriminate.
Qed.

Lemma phfwdGet_ext_path pf pf' n :
  (pf = NULL <-> pf' = NULL) ->
  (forall k, k <= length n ->
     target_at pf' (codes (firstn k n)) =
     target_at pf (codes (firstn k n))) ->
  phfwdGet pf' (Some n) = phfwdGet pf (Some n).
Proof.
  intros Hnull Hsame. unfold phfwdGet.
  destruct pf as [| fwd cs], pf' as [| fwd' cs']; try reflexivity;
    try (exfalso; destruct Hnull as [H1 H2];
         (now discriminate H1) || (now discriminate H2)).
  destruct (isNumberOk (Some n)); cbn [negb]; [| reflexivity].
  now rewrite (@phoneForwardGet_ext_path _ _ n None 0 0 Hsame).
Qed.

(** A prefix of [m] whose codes extend those of [n] shows that [n] is a
    prefix of [m]. *)
Lemma codes_extend_prefix n m k ext :
  symbols n -> symbols m ->
  codes (firstn k m) = codes n ++ ext -> prefix_of n m.
Proof.
  intros Hn Hm E.
  assert (E1 : codes (firstn (length n) (firstn k m)) = codes n).
  { unfold codes in *. rewrite <- firstn_map, E.
    rewrite <- (length_map charToInt n) at 1.
    now rewrite firstn_app, firstn_all, Nat.sub_diag, app_nil_r. }
  apply codes_inj in E1; auto;
    [| now apply symbols_firstn, symbols_firstn].
  exists (skipn (length n) (firstn k m) ++ skipn k m).
  rewrite app_assoc. rewrite <- E1 at 1.
  now rewrite !firstn_skipn.
Qed.

(** X17.  A successful [phfwdAdd] of the prefix [p] leaves the answer of
    [phfwdGet] as it was for every valid number that does not begin with
    [p]. *)
Theorem phfwdAdd_keeps_other_numbers (al : allocator) (pf : PhoneForward)
    (p y : cstring) (pf2 : PhoneForward) (al' : allocator) (n : cstring) :
  phfwdAdd al pf (Some p) (Some y) = (true, pf2, al') ->
  valid n -> ~ prefix_of p n ->
  phfwdGet pf2 (Some n) = phfwdGet pf (Some n).
Proof.
  intros H Hn Hnp.
  destruct (phfwdAdd_cases _ _ _ _ H)
    as [(? & _) | (? & ? & [= <-] & [= <-] & Vp & Vy & _ & Hpf & Hadd)];
    [discriminate |].
  destruct Hadd as [[_ Hadd] | (? & ? & _)]; [| discriminate].
  apply addPhoneForward_true in Hadd as ->.
  apply phfwdGet_ext_path.
  - pose proof (@store_not_NULL pf (codes p) y). tauto.
  - intros k _. apply target_at_store_other. intros E.
    apply Hnp. apply valid_iff in Hn as [_ Hn]. apply valid_iff in Vp as [_ Vp].
    apply (@codes_extend_prefix p n k []); auto. now rewrite app_nil_r.
Qed.

Lemma phfwdAdd_keeps_other_numbers_witness :
  phfwdGet trie_12_123 (Some (str "1299")) =
  phfwdGet trie_12_to_1 (Some (str "1299")).
Proof.
  apply (@phfwdAdd_keeps_other_numbers [] trie_12_to_1 (str "123") (str "2")
           trie_12_123 [] (str "1299")).
  - reflexivity.
  - reflexivity.
  - intros [s E]. discriminate E.
Defined.

(** X18.  After a successful [phfwdAdd] of the prefix [p] with the target
    [y] on a trie that satisfies the invariant, [phfwdGet] maps [p]
    followed by any symbols [s] to [y] followed by [s], unless the trie
    held a rule for a longer prefix of that number. *)
Theorem phfwdAdd_then_phfwdGet (al : allocator) (pf : PhoneForward)
    (p y : cstring) (pf2 : PhoneForward) (al' : allocator) (s : cstring) :
  wf pf = true ->
  phfwdAdd al pf (Some p) (Some y) = (true, pf2, al') ->
  symbols s ->
  (forall k, length p < k -> k <= length (p ++ s) ->
     target_at pf (codes (firstn k (p ++ s))) = None) ->
  phfwdGet pf2 (Some (p ++ s)) =
  Some {| numbers := [Some (y ++ s)]; size := 1 |}.
Proof.
  intros Hwf H Hs Hdeep.
  destruct (phfwdAdd_cases _ _ _ _ H)
    as [(? & _) | (? & ? & [= <-] & [= <-] & Vp & Vy & _ & Hpf & Hadd)];
    [discriminate |].
  destruct Hadd as [[_ Hadd] | (? & ? & _)]; [| discriminate].
  apply addPhoneForward_true in Hadd as ->.
  assert (Vps : valid (p ++ s)).
  { apply valid_iff in Vp as [Hne Hp]. apply valid_iff. split.
    - destruct p; [congruence | discriminate].
    - now apply symbols_app. }
  assert (D : deepest_rule (store pf (codes p) y) (p ++ s) (length p) y).
  { split; [rewrite length_app; lia | split].
    - rewrite firstn_app, firstn_all, Nat.sub_diag, app_nil_r.
      apply target_at_store_same; [exact Hwf | apply codes_lt].
    - intros k Hk Hle. rewrite target_at_store_other; [now apply Hdeep |].
      intros E. apply (f_equal (@length nat)) in E.
      unfold codes in E. rewrite !length_map, length_firstn in E. lia. }
  pose proof (phfwdGet_deepest (@store_not_NULL pf (codes p) y) Vps D) as E.
  rewrite skipn_app, skipn_all, Nat.sub_diag in E. exact E.
Qed.

Lemma phfwdAdd_then_phfwdGet_witness :
  phfwdGet trie_12_to_1 (Some (str "12" ++ str "345")) =
  Some {| numbers := [Some (str "1" ++ str "345")]; size := 1 |}.
Proof.
  apply (@phfwdAdd_then_phfwdGet [] trie_empty (str "12") (str "1")
           trie_12_to_1 [] (str "345")).
  - reflexivity.
  - reflexivity.
  - reflexivity.
  - intros k _ _. apply target_at_fresh.
Defined.

(** X19.  After a successful [phfwdAdd] of the prefix [p] with the target
    [y] on a trie that satisfies the invariant, the list of
    [phfwdReverse] for a valid number [m] holds [m], the number [p]
    followed by [s] when [m] is [y] followed by [s], and the candidates
    of the rules the trie had for the prefixes other than [p]; the
    candidates of a rule that [p] had before are gone. *)
Theorem phfwdAdd_then_phfwdReverse (al : allocator) (pf : PhoneForward)
    (p y : cstring) (pf2 : PhoneForward) (al' : allocator) (m : cstring) :
  wf pf = true ->
  phfwdAdd al pf (Some p) (Some y) = (true, pf2, al') ->
  valid m ->
  exists out,
    holds (phfwdReverse pf2 (Some m)) out /\
    forall x,
      In x out <->
      x = m \/
      (exists s, m = y ++ s /\ x = p ++ s) \/
      (exists P t s,
         symbols P /\ P <> p /\ target_at pf (codes P) = Some t /\
         m = t ++ s /\ x = P ++ s).
Proof.
  intros Hwf H Hm.
  destruct (phfwdAdd_cases _ _ _ _ H)
    as [(? & _) | (? & ? & [= <-] & [= <-] & Vp & Vy & _ & Hpf & Hadd)];
    [discriminate |].
  destruct Hadd as [[_ Hadd] | (? & ? & _)]; [| discriminate].
  apply addPhoneForward_true in Hadd as ->.
  apply valid_iff in Vp as [_ Sp].
  exists (reverseCells (store pf (codes p) y) m).
  split; [apply phfwdReverse_valid; auto using store_not_NULL |].
  intros x. rewrite reverseCells_In. unfold candidate.
  assert (Hp : target_at (store pf (codes p) y) (codes p) = Some y)
    by (apply target_at_store_same; [exact Hwf | apply codes_lt]).
  split.
  - intros [-> | (P & t & s & HP & Ht & -> & ->)]; [now left | right].
    destruct (list_eq_dec ascii_dec P p) as [-> | Hne].
    + left. rewrite Hp in Ht. injection Ht as <-. now exists s.
    + right. exists P, t, s. repeat split; auto.
      rewrite target_at_store_other in Ht; [exact Ht |].
      intros E. apply Hne. now apply codes_inj.
  - intros [-> | [(s & -> & ->) | (P & t & s & HP & Hne & Ht & -> & ->)]];
      [now left | right | right].
    + exists p, y, s. repeat split; auto.
    + exists P, t, s. repeat split; auto.
      rewrite target_at_store_other; [exact Ht |].
      intros E. apply Hne. now apply codes_inj.
Qed.

Lemma phfwdAdd_then_phfwdReverse_witness :
  exists out,
    holds (phfwdReverse trie_12_123 (Some (str "24"))) out /\
    forall x,
      In x out <->
      x = str "24" \/
      (exists s, str "24" = str "2" ++ s /\ x = str "123" ++ s) \/
      (exists P t s,
         symbols P /\ P <> str "123" /\
         target_at trie_12_to_1 (codes P) = Some t /\
         str "24" = t ++ s /\ x = P ++ s).
Proof.
  apply (@phfwdAdd_then_phfwdReverse [] trie_12_to_1 (str "123") (str "2")
           trie_12_123 [] (str "24")); reflexivity.
Defined.

(** X20.  [phfwdRemove] of a valid number [n] leaves the answer of
    [phfwdGet] as it was for every valid number that does not begin with
    [n]. *)
Theorem phfwdRemove_keeps_other_numbers (pf : PhoneForward)
    (n m : cstring) :
  valid n -> valid m -> ~ prefix_of n m ->
  phfwdGet (phfwdRemove pf (Some n)) (Some m) = phfwdGet pf (Some m).
Proof.
  intros Hn Hm Hnp. destruct (phfwdRemove_rules pf Hn) as (_ & O).
  apply phfwdGet_ext_path.
  - destruct (phfwdRemove_root pf (Some n)) as [N _].
    split; [intros -> | intros E]; [reflexivity |].
    destruct pf; [reflexivity |]. exfalso. apply N; [discriminate | exact E].
  - intros k _. apply O. intros ext E. apply Hnp.
    apply valid_iff in Hn as [_ Hn]. apply valid_iff in Hm as [_ Hm].
    now apply (@codes_extend_prefix n m k ext).
Qed.

Lemma phfwdRemove_keeps_other_numbers_witness :
  phfwdGet (phfwdRemove trie_12_123 (Some (str "123"))) (Some (str "1299")) =
  phfwdGet trie_12_123 (Some (str "1299")).
Proof.
  apply (@phfwdRemove_keeps_other_numbers trie_12_123 (str "123")
           (str "1299")).
  - reflexivity.
  - reflexivity.
  - intros [s E]. discriminate E.
Defined.

(** X21.  After [phfwdRemove] of a valid number [n], [phfwdGet] resolves
    a number that begins with [n] by the rules of the proper prefixes of
    [n] alone: when the trie holds none, the number comes back
    unchanged. *)
Theorem phfwdRemove_then_phfwdGet (pf : PhoneForward) (n s : cstring) :
  pf <> NULL -> valid n -> symbols s ->
  (forall k, k < length n -> target_at pf (codes (firstn k n)) = None) ->
  phfwdGet (phfwdRemove pf (Some n)) (Some (n ++ s)) =
  Some {| numbers := [Some (n ++ s)]; size := 1 |}.
Proof.
  intros Hpf Hn Hs Hno.
  destruct (phfwdRemove_rules pf Hn) as (G & O).
  destruct (phfwdRemove_root pf (Some n)) as [N _].
  pose proof Hn as Hv. apply valid_iff in Hv as [Hne Hsn].
  apply phfwdGet_no_rule; [now apply N | |].
  - apply valid_iff. split; [| now apply symbols_app].
    destruct n; [congruence | discriminate].
  - intros k _. destruct (Nat.lt_ge_cases k (length n)) as [L | G'].
    + rewrite firstn_app. replace (k - length n) with 0 by lia.
      rewrite firstn_O, app_nil_r. rewrite O; [now apply Hno |].
      intros ext E. apply (f_equal (@length nat)) in E.
      unfold codes in E.
      rewrite length_app, !length_map, length_firstn in E. lia.
    + rewrite firstn_app, (firstn_all2 n) by exact G'.
      rewrite codes_app. apply G.
Qed.

Lemma phfwdRemove_then_phfwdGet_witness :
  phfwdGet (phfwdRemove trie_123_1234 (Some (str "123")))
    (Some (str "123" ++ str "4")) =
  Some {| numbers := [Some (str "123" ++ str "4")]; size := 1 |}.
Proof.
  apply (@phfwdRemove_then_phfwdGet trie_123_1234 (str "123") (str "4")).
  - vm_compute. discriminate.
  - reflexivity.
  - reflexivity.
  - intros k Hk. change (length (str "123")) with 3 in Hk.
    destruct k as [| [| [| k]]]; [reflexivity .. | lia].
Defined.

(** ** Additions, composed *)

Lemma setChild_comm cs k1 k2 x y :
  k1 <> k2 ->
  setChild (setChild cs k1 x) k2 y = setChild (setChild cs k2 y) k1 x.
Proof.
  revert k1 k2. induction cs as [| c cs IH]; intros [| k1] [| k2] H;
    simpl; try reflexivity; try congruence.
  f_equal. apply IH. congruence.
Qed.

Lemma store_comm c1 :
  forall c2 pf y1 y2,
    c1 <> c2 ->
    store (store pf c1 y1) c2 y2 = store (store pf c2 y2) c1 y1.
Proof.
  induction c1 as [| k1 c1 IH]; intros c2 pf y1 y2 Hne.
  - destruct c2 as [| k2 c2]; [congruence |]. destruct pf; reflexivity.
  - destruct c2 as [| k2 c2]; [destruct pf; reflexivity |].
    assert (L : forall fwd cs,
              store (store (Node fwd cs) (k1 :: c1) y1) (k2 :: c2) y2 =
              store (store (Node fwd cs) (k2 :: c2) y2) (k1 :: c1) y1).
    { intros fwd cs. rewrite !store_Node_cons.
      destruct (Nat.eq_dec k1 k2) as [<- | Hk].
      - rewrite !setChild_setChild, !child_setChild.
        destruct (Nat.ltb_spec k1 (length cs)) as [Hlt | Hge].
        + rewrite IH; [reflexivity | congruence].
        + now rewrite !(setChild_overflow _ _ Hge).
      - rewrite (child_setChild_other cs _ Hk).
        rewrite (child_setChild_other cs _ (not_eq_sym Hk)).
        f_equal. now apply setChild_comm. }
    destruct pf as [| fwd cs]; [| apply L].
    rewrite (store_NULL (k1 :: c1)), (store_NULL (k2 :: c2)). apply L.
Qed.

(** X22.  Two successful [phfwdAdd] for different prefixes give the same
    trie in either order. *)
Theorem phfwdAdd_commute (pf : PhoneForward) (p1 y1 p2 y2 : cstring)
    (al1 al2 al3 al4 al1' al2' al3' al4' : allocator)
    (pf1 pf12 pf2 pf21 : PhoneForward) :
  p1 <> p2 ->
  phfwdAdd al1 pf (Some p1) (Some y1) = (true, pf1, al1') ->
  phfwdAdd al2 pf1 (Some p2) (Some y2) = (true, pf12, al2') ->
  phfwdAdd al3 pf (Some p2) (Some y2) = (true, pf2, al3') ->
  phfwdAdd al4 pf2 (Some p1) (Some y1) = (true, pf21, al4') ->
  pf12 = pf21.
Proof.
  intros Hne H1 H12 H2 H21.
  assert (S : forall al t p y t' al',
             phfwdAdd al t (Some p) (Some y) = (true, t', al') ->
             t' = store t (codes p) y /\ symbols p).
  { intros al t p y t' al' H.
    destruct (phfwdAdd_cases _ _ _ _ H)
      as [(? & _) | (? & ? & [= <-] & [= <-] & Vp & _ & _ & _ & Hadd)];
      [discriminate |].
    destruct Hadd as [[_ Hadd] | (? & ? & _)]; [| discriminate].
    apply valid_iff in Vp as [_ Vp].
    split; [now apply addPhoneForward_true in Hadd | exact Vp]. }
  apply S in H1 as [-> S1]. apply S in H12 as [-> _].
  apply S in H2 as [-> S2]. apply S in H21 as [-> _].
  apply store_comm. intros E. apply Hne. now apply codes_inj.
Qed.

Lemma phfwdAdd_commute_witness :
  trie_12_123 =
  snd (fst (phfwdAdd [] (snd (fst (phfwdAdd [] trie_empty
                                     (Some (str "123")) (Some (str "2")))))
              (Some (str "12")) (Some (str "1")))).
Proof.
  apply (@phfwdAdd_commute trie_empty (str "12") (str "1") (str "123")
           (str "2") [] [] [] [] [] [] [] [] trie_12_to_1 trie_12_123
           (snd (fst (phfwdAdd [] trie_empty
                        (Some (str "123")) (Some (str "2")))))).
  - discriminate.
  - reflexivity.
  - reflexivity.
  - reflexivity.
  - reflexivity.
Defined.

Lemma addPhoneForward_succeeds rest :
  forall al pf t,
    Forall (fun b => b = true) al -> pf <> NULL ->
    exists pf' al',
      addPhoneForward al pf rest t = (true, pf', al') /\
      Forall (fun b => b = true) al'.
Proof.
  induction rest as [| c rest IH]; intros al [| fwd cs] t Hal Hpf;
    try congruence.
  - exists (Node (Some t) cs), al. split; [reflexivity | exact Hal].
  - destruct (addPhoneForward_cons al fwd cs c rest t)
      as [(_ & al0 & Hnew & _) |
          (sub0 & al0 & r & sub & al1 & Hnn & Hsub & Ea & E)].
    + exfalso. unfold phfwdNew, malloc in Hnew.
      destruct al as [| [|] al]; try discriminate.
      inversion Hal as [| ? ? Hb _]. discriminate.
    + assert (Hal0 : Forall (fun b => b = true) al0).
      { destruct Hsub as [(_ & Hnew & _) | (_ & ->)]; [| exact Hal].
        unfold phfwdNew, malloc in Hnew.
        destruct al as [| [|] al]; injection Hnew as _ <-; auto;
          inversion Hal; subst; assumption || discriminate. }
      destruct (IH al0 sub0 t Hal0 Hnn) as (pf' & al' & Ea' & Hal').
      rewrite Ea in Ea'. injection Ea' as -> -> ->.
      rewrite E. exists (Node fwd (setChild cs (charToInt c) pf')), al'.
      split; [reflexivity | exact Hal'].
Qed.

(** X23.  A [phfwdAdd] with a trie, two valid numbers that differ, and
    an allocator that never fails returns [true], and [phfwdGet] then
    maps the prefix to the target: with valid arguments only a failed
    allocation makes it return [false]. *)
Theorem phfwdAdd_succeeds (al : allocator) (pf : PhoneForward)
    (p y : cstring) :
  Forall (fun b => b = true) al ->
  pf <> NULL -> wf pf = true -> valid p -> valid y -> p <> y ->
  exists pf' al',
    phfwdAdd al pf (Some p) (Some y) = (true, pf', al') /\
    phfwdGet pf' (Some p) = Some {| numbers := [Some y]; size := 1 |}.
Proof.
  intros Hal Hpf Hwf Vp Vy Hne.
  destruct (addPhoneForward_succeeds p y Hal Hpf) as (pf' & al' & Ea & _).
  exists pf', al'.
  assert (E : phfwdAdd al pf (Some p) (Some y) = (true, pf', al')).
  { unfold phfwdAdd. destruct pf as [| fwd cs]; [congruence |].
    unfold valid in Vp, Vy. rewrite Vp, Vy.
    apply streq_false in Hne. rewrite Hne. cbn [negb orb].
    now rewrite Ea. }
  split; [exact E |].
  apply addPhoneForward_true in Ea as ->.
  apply phfwdGet_exact; [apply store_not_NULL | exact Vp |].
  apply target_at_store_same; [exact Hwf | apply codes_lt].
Qed.

Lemma phfwdAdd_succeeds_witness :
  exists pf' al',
    phfwdAdd [true; true] trie_12_to_1 (Some (str "345")) (Some (str "6")) =
      (true, pf', al') /\
    phfwdGet pf' (Some (str "345")) =
      Some {| numbers := [Some (str "6")]; size := 1 |}.
Proof.
  apply (@phfwdAdd_succeeds [true; true] trie_12_to_1 (str "345") (str "6")).
  - repeat constructor.
  - vm_compute. discriminate.
  - reflexivity.
  - reflexivity.
  - reflexivity.
  - discriminate.
Defined.

(** ** A new trie *)

(** X24.  The trie [phfwdNew] returns when its allocation succeeds holds
    no rule: [phfwdGet] maps every valid number to itself, and the lists
    of [phfwdReverse] and [phfwdGetReverse] hold that number alone. *)
Theorem phfwdNew_empty (al : allocator) (pf : PhoneForward)
    (al' : allocator) (n : cstring) :
  phfwdNew al = (pf, al') -> pf <> NULL -> valid n ->
  phfwdGet pf (Some n) = Some {| numbers := [Some n]; size := 1 |} /\
  holds (phfwdReverse pf (Some n)) [n] /\
  holds (phfwdGetReverse pf (Some n)) [n].
Proof.
  intros Hnew Hpf Hn.
  assert (Epf : pf = Node None (repeat NULL BASE)).
  { destruct (phfwdNew_cases al) as [[al0 E] | [al0 E]];
      rewrite E in Hnew; congruence. }
  clear Hnew. subst pf.
  assert (G : phfwdGet (Node None (repeat NULL BASE)) (Some n) =
              Some {| numbers := [Some n]; size := 1 |}).
  { apply phfwdGet_no_rule; auto. intros k _. apply target_at_fresh. }
  assert (R : reverseCells (Node None (repeat NULL BASE)) n = [n])
    by reflexivity.
  split; [exact G | split].
  - unfold holds. rewrite (phfwdReverse_valid Hpf Hn), R. reflexivity.
  - unfold holds. rewrite (phfwdGetReverse_valid Hpf Hn), R.
    cbn [map filter].
    rewrite (proj2 (forwardsTo_true n n Hpf) G). reflexivity.
Qed.

Lemma phfwdNew_empty_witness :
  phfwdGet trie_empty (Some (str "600")) =
    Some {| numbers := [Some (str "600")]; size := 1 |} /\
  holds (phfwdReverse trie_empty (Some (str "600"))) [str "600"] /\
  holds (phfwdGetReverse trie_empty (Some (str "600"))) [str "600"].
Proof.
  apply (@phfwdNew_empty [] trie_empty [] (str "600")).
  - reflexivity.
  - vm_compute. discriminate.
  - reflexivity.
Defined.

(** ** Nodes without a rule *)

(** X25.  The three queries see the rules of a trie and nothing else: two
    tries that hold the same target at every path give the same answers,
    whatever nodes without a rule they have. *)
Theorem queries_see_rules_only (pf pf' : PhoneForward) :
  pf <> NULL -> pf' <> NULL -> same_rules pf pf' -> same_answers pf pf'.
Proof.
  intros Hpf Hpf' Hsame. apply same_rules_same_answers; [| exact Hsame].
  split; intros E; congruence.
Qed.

Lemma queries_see_rules_only_witness :
  same_answers trie_empty trie_half_12.
Proof.
  apply (@queries_see_rules_only trie_empty trie_half_12).
  - vm_compute. discriminate.
  - vm_compute. discriminate.
  - apply (@phfwdAdd_false_same_rules [true; false] trie_empty
             (Some (str "12")) (Some (str "3")) trie_half_12 []).
    reflexivity.
Defined.

(** ** The buffers of [reverse] *)







Lemma reverse_length pf n cur pn :
  length pn <= length (reverse pf n cur pn).
Proof. rewrite reverse_acc, length_app. lia. Qed.






Section ReverseBuffers.

Variables SIZE_MAX PTR : N.
Variables Hmax Jmax : nat.
Variable n : cstring.
Hypothesis size_max_2 : (2 <= SIZE_MAX)%N.
Hypothesis PTR_pos : (1 <= PTR)%N.
Hypothesis Hmax_fits : (N.of_nat (Hmax + length n + 1) <= SIZE_MAX)%N.
Hypothesis Jmax_fits : (2 * N.of_nat Jmax * PTR <= SIZE_MAX)%N.






End ReverseBuffers.




(** With a [size_t] too small for the height of the trie the path buffer
    stops growing and the next write is outside it. *)
Example reverse_out_of_bounds :
  height trie_12_123 = 4 /\
  Buf.reverse 2 1 trie_12_123 (str "24") 0 Buf.initial = None.
Proof. split; reflexivity. Qed.

(** With a [size_t] of four bits and pointers of eight bytes, two
    candidates are enough: the list grows from one cell to [newSize(1)],
    three cells, whose twenty-four bytes wrap around to eight, one cell,
    and the second candidate is written outside it. *)
Example reverse_bytes_wrap :
  reverse trie_1_2_to_5 (str "5") [] [] = [str "1"; str "2"] /\
  SizeT.newSize 15 1 = 3%N /\
  Buf.elements 15 8 3 = 1%N /\
  Buf.reverse 15 8 trie_1_2_to_5 (str "5") 0 Buf.initial = None /\
  exists st, Buf.reverse 15 1 trie_1_2_to_5 (str "5") 0 Buf.initial = Some st.
Proof.
  split; [vm_compute; reflexivity |].
  split; [vm_compute; reflexivity |].
  split; [vm_compute; reflexivity |].
  split; [vm_compute; reflexivity |].
  eexists. vm_compute. reflexivity.
Qed.

(** ** The list of [phfwdGetReverse] as it grows *)


Section GetReverseCells.

Variables SIZE_MAX PTR : N.
Variable Kmax : nat.
Hypothesis size_max_2 : (2 <= SIZE_MAX)%N.
Hypothesis PTR_pos : (1 <= PTR)%N.
Hypothesis Kmax_fits : (2 * N.of_nat Kmax * PTR <= SIZE_MAX)%N.



End GetReverseCells.


